(** * CTIM codec: a shallow embedding of [ctim.cpp] and its verification

    The repository consists of two [noexcept] functions, [encodeCTIM] and
    [decodeCTIM], packing a triple (ledger index, transaction index,
    network id) into a tagged 64-bit word printed as 16 upper-case
    hexadecimal characters, and unpacking it again.

    Layout of the development:
    - [Cxx]: the fragment of the C++ language and standard library the two
      functions rely on (fixed-width unsigned arithmetic, exceptions under
      [noexcept], [errno], stream formatting of an integer in base 16,
      the regular expression [^[0-9A-F]+$], [std::stoull]);
    - [Ctim]: the two functions, line by line;
    - [HexSpec]: what "the 16-character upper-case hexadecimal
      representation of a value" means, independently of the code;
    - facts about the library fragment, then the properties of the codec. *)

From Stdlib Require Import ZArith Lia Bool List Ascii String.
Import ListNotations.

Local Open Scope Z_scope.

(* ================================================================== *)
(** ** The C++ fragment *)

Module Cxx.

(** *** Fixed-width unsigned integers

    A value of an unsigned type of width [w] is a [Z] in [0, 2^w).
    Conversion to such a type and every arithmetic operation on it
    reduce modulo [2^w]. *)

Definition wrap (w z : Z) : Z := z mod 2 ^ w.

Definition to_uint16 : Z -> Z := wrap 16.
Definition to_uint32 : Z -> Z := wrap 32.
Definition to_uint64 : Z -> Z := wrap 64.

Definition is_uint16 (z : Z) : Prop := 0 <= z < 2 ^ 16.
Definition is_uint32 (z : Z) : Prop := 0 <= z < 2 ^ 32.
Definition is_uint64 (z : Z) : Prop := 0 <= z < 2 ^ 64.

Definition ULLONG_MAX : Z := 0xFFFFFFFFFFFFFFFF.

(** [a + b] and [a << n] on [uint64_t] operands. *)
Definition add64 (a b : Z) : Z := to_uint64 (a + b).
Definition shl64 (a n : Z) : Z := to_uint64 (Z.shiftl a n).

(** *** Exceptions, [errno], and [noexcept]

    The only piece of ambient state the two functions can reach is
    [errno], through [std::stoull] (memory exhaustion is left out). A
    computation takes the state and gives back a result and the new
    state; it either returns a value or throws. The exceptions are
    the two of [std::stoull] and the [std::logic_error] that the
    [std::string] constructor throws on a null pointer. A [noexcept]
    function that lets an exception escape calls [std::terminate]. *)

Record World : Type := mkWorld { errno : Z }.

Definition ERANGE : Z := 34.

Inductive exception : Type :=
| invalid_argument
| out_of_range
| logic_error.

Inductive result (A : Type) : Type :=
| Ret (a : A)
| Throw (e : exception)
| Terminate.
Arguments Ret {A} a.
Arguments Throw {A} e.
Arguments Terminate {A}.

Definition M (A : Type) : Type := World -> result A * World.

Definition ret {A} (a : A) : M A := fun w => (Ret a, w).

Definition throw {A} (e : exception) : M A := fun w => (Throw e, w).

Definition bind {A B} (m : M A) (k : A -> M B) : M B :=
  fun w =>
    match m w with
    | (Ret a, w') => k a w'
    | (Throw e, w') => (Throw e, w')
    | (Terminate, w') => (Terminate, w')
    end.

Definition noexcept {A} (m : M A) : M A :=
  fun w =>
    match m w with
    | (Throw _, w') => (Terminate, w')
    | r => r
    end.

Declare Scope cxx_scope.
Delimit Scope cxx_scope with cxx.
Notation "x <- m ;; k" := (bind m (fun x => k))
  (at level 61, m at next level, right associativity) : cxx_scope.
Notation "m ;; k" := (bind m (fun _ => k))
  (at level 61, right associativity) : cxx_scope.
Local Open Scope cxx_scope.

Definition get_errno : M Z := fun w => (Ret (errno w), w).
Definition set_errno (e : Z) : M unit := fun _ => (Ret tt, mkWorld e).

(** *** Characters *)

Definition code (c : ascii) : Z := Z.of_nat (nat_of_ascii c).

Definition in_range (lo hi c : ascii) : bool :=
  (code lo <=? code c) && (code c <=? code hi).

(** [isspace] in the "C" locale: space, and HT LF VT FF CR. *)
Definition isspace (c : ascii) : bool :=
  (code c =? 32) || ((9 <=? code c) && (code c <=? 13)).

(** *** Inserting an unsigned integer into a stream

    [os << std::hex << std::uppercase << std::setfill(f) << std::setw(n) << v]
    in the classic locale: the digits of [v] in base 16, most
    significant first and without leading zeros ("0" for zero), then
    padded on the left with the fill character up to the width (never
    truncated). *)

Definition digits_upper : string := "0123456789ABCDEF".
Definition digits_lower : string := "0123456789abcdef".

Definition hex_digit (uppercase : bool) (d : Z) : ascii :=
  match String.get (Z.to_nat d) (if uppercase then digits_upper else digits_lower) with
  | Some c => c
  | None => "0"%char
  end.

(** The conversion loop writes digits from the least significant one;
    [fuel] bounds the number of digits by the bit width of the type. *)
Fixpoint hex_digits (fuel : nat) (uppercase : bool) (v : Z) (acc : string) : string :=
  match fuel with
  | O => acc
  | S fuel' =>
      let acc' := String (hex_digit uppercase (v mod 16)) acc in
      if v / 16 =? 0 then acc' else hex_digits fuel' uppercase (v / 16) acc'
  end.

Fixpoint fill_chars (n : nat) (f : ascii) : string :=
  match n with
  | O => EmptyString
  | S n' => String f (fill_chars n' f)
  end.

Definition pad_left (f : ascii) (width : nat) (s : string) : string :=
  (fill_chars (width - String.length s) f ++ s)%string.

Definition put_hex_uint64 (uppercase : bool) (f : ascii) (width : nat) (v : Z) : string :=
  pad_left f width (hex_digits 64 uppercase v EmptyString).

(** *** [std::regex_match(s, std::regex("^[0-9A-F]+$"))]

    [regex_match] succeeds when the whole string is matched; the only
    part of the pattern that consumes characters is the class
    [[0-9A-F]], repeated at least once. *)

Definition class_0_9A_F (c : ascii) : bool :=
  in_range "0" "9" c || in_range "A" "F" c.

Fixpoint all_chars (p : ascii -> bool) (s : string) : bool :=
  match s with
  | EmptyString => true
  | String c r => p c && all_chars p r
  end.

Definition regex_match_class_plus (p : ascii -> bool) (s : string) : bool :=
  match s with
  | EmptyString => false
  | String _ _ => all_chars p s
  end.

(** *** [strtoull] and [std::stoull]

    [strtoull(s, &end, base)] skips white space, reads an optional sign
    and, in base 16, an optional [0x]/[0X] prefix, then the longest run
    of digits valid in the base. Without any digit nothing is converted
    ([end == s]). A magnitude above [ULLONG_MAX] gives [ULLONG_MAX] and
    sets [errno] to [ERANGE]; otherwise a leading minus negates the
    value in unsigned arithmetic. *)

Definition digit_value (c : ascii) : option Z :=
  if in_range "0" "9" c then Some (code c - 48)
  else if in_range "a" "z" c then Some (code c - 97 + 10)
  else if in_range "A" "Z" c then Some (code c - 65 + 10)
  else None.

Definition is_digit_of (base : Z) (c : ascii) : bool :=
  match digit_value c with
  | Some d => d <? base
  | None => false
  end.

Fixpoint skip_space (s : string) : string :=
  match s with
  | String c r => if isspace c then skip_space r else s
  | EmptyString => s
  end.

Definition skip_sign (s : string) : bool * string :=
  match s with
  | String c r =>
      if Ascii.eqb c "-" then (true, r)
      else if Ascii.eqb c "+" then (false, r)
      else (false, s)
  | EmptyString => (false, s)
  end.

Definition skip_prefix (base : Z) (s : string) : string :=
  if base =? 16 then
    match s with
    | String c0 (String c1 (String c2 r)) =>
        if Ascii.eqb c0 "0" && (Ascii.eqb c1 "x" || Ascii.eqb c1 "X")
           && is_digit_of 16 c2
        then String c2 r
        else s
    | _ => s
    end
  else s.

(** The digit loop: accumulated value, whether a digit was seen,
    whether the value overflowed. *)
Fixpoint accumulate (base : Z) (s : string) (acc : Z) (any overflow : bool)
  : Z * bool * bool :=
  match s with
  | EmptyString => (acc, any, overflow)
  | String c r =>
      match digit_value c with
      | Some d =>
          if d <? base then
            if overflow then accumulate base r acc true true
            else
              let acc' := acc * base + d in
              if acc' >? ULLONG_MAX
              then accumulate base r ULLONG_MAX true true
              else accumulate base r acc' true false
          else (acc, any, overflow)
      | None => (acc, any, overflow)
      end
  end.

(** The result is the value and whether anything was converted. *)
Definition strtoull (s : string) (base : Z) : M (Z * bool) :=
  let (negative, s') := skip_sign (skip_space s) in
  match accumulate base (skip_prefix base s') 0 false false with
  | (_, false, _) => ret (0, false)
  | (_, true, true) => set_errno ERANGE ;; ret (ULLONG_MAX, true)
  | (v, true, false) => ret (if negative then to_uint64 (- v) else v, true)
  end.

(** [std::stoull(s, nullptr, base)]: saves [errno] and clears it, calls
    [strtoull], throws [invalid_argument] when nothing was converted and
    [out_of_range] when [errno] is [ERANGE]; on the way out [errno] gets
    its saved value back if it is still zero. *)
Definition restore_errno (saved : Z) : M unit :=
  e <- get_errno ;;
  if e =? 0 then set_errno saved else ret tt.

Definition stoull (s : string) (base : Z) : M Z :=
  saved <- get_errno ;;
  set_errno 0 ;;
  r <- strtoull s base ;;
  e <- get_errno ;;
  restore_errno saved ;;
  let (v, converted) := r in
  if negb converted then throw invalid_argument
  else if e =? ERANGE then throw out_of_range
  else ret v.

End Cxx.

(* ================================================================== *)
(** ** The codec *)

Module Ctim.
Import Cxx.
Local Open Scope cxx_scope.

(** [encodeCTIM(uint32_t lgrIndex, uint16_t txnIndex, uint16_t networkId)
    noexcept]. The three comparisons are the ones of the source; the
    sum is taken in [uint64_t] and printed in base 16, upper case, zero
    filled, width 16. *)
Definition encodeCTIM (lgrIndex txnIndex networkId : Z) : M (option string) :=
  noexcept
    (if lgrIndex >? 0xFFFFFFF then ret None
     else if txnIndex >? 0xFFFF then ret None
     else if networkId >? 0xFFFF then ret None
     else
       let ctimValue :=
         add64
           (add64 (shl64 (add64 0xC0000000 (to_uint64 lgrIndex)) 32)
                  (shl64 (to_uint64 txnIndex) 16))
           (to_uint64 networkId) in
       ret (Some (put_hex_uint64 true "0" 16 ctimValue))).

(** The argument of the template [decodeCTIM<T>]:
    - a string-like [T] ([std::string], [std::string_view], or a
      [char *] / [const char *] that points to a terminated string),
      seen through the [std::string] that line 43 builds from it;
    - a null [char *] / [const char *];
    - an integral [T] of any width and signedness;
    - any other type. *)
Inductive ctim_arg : Type :=
| StringArg (ctimString : string)
| IntegralArg (ctim : Z)
| OtherArg
| NullPointerArg.

(** The part of [decodeCTIM] common to the string and the integral
    instantiation: the tag check and the unpacking of [ctimValue]. *)
Definition decodeCTIM_value (ctimValue : Z) : option (Z * Z * Z) :=
  if (ctimValue >? 0xFFFFFFFFFFFFFFFF)
     || negb (Z.land ctimValue 0xF000000000000000 =? 0xC000000000000000)
  then None
  else
    let lgrIndex := to_uint32 (Z.land (Z.shiftr ctimValue 32) 0xFFFFFFF) in
    let txnIndex := to_uint16 (Z.land (Z.shiftr ctimValue 16) 0xFFFF) in
    let networkId := to_uint16 (Z.land ctimValue 0xFFFF) in
    Some (lgrIndex, txnIndex, networkId).

Definition decodeCTIM (ctim : ctim_arg) : M (option (Z * Z * Z)) :=
  noexcept
    match ctim with
    | StringArg ctimString =>
        if negb (String.length ctimString =? 16)%nat then ret None
        else if negb (regex_match_class_plus class_0_9A_F ctimString) then ret None
        else ctimValue <- stoull ctimString 16 ;;
             ret (decodeCTIM_value ctimValue)
    | IntegralArg ctim =>
        let ctimValue := to_uint64 ctim in
        ret (decodeCTIM_value ctimValue)
    | OtherArg => ret None
    | NullPointerArg =>
        (* const std::string ctimString(ctim): the constructor throws
           std::logic_error on a null pointer, before any test. *)
        throw logic_error
    end.

End Ctim.

(* ================================================================== *)
(** ** Hexadecimal representation, stated independently of the code *)

Module HexSpec.

(** The upper-case hexadecimal digits in increasing order of value: the
    value of a digit is its position; anything else is not a digit. *)
Definition upper_hex_alphabet : string := "0123456789ABCDEF".

Fixpoint position (c : ascii) (s : string) : option Z :=
  match s with
  | EmptyString => None
  | String c' r =>
      if Ascii.eqb c c' then Some 0 else option_map Z.succ (position c r)
  end.

Definition upper_hex_value (c : ascii) : option Z :=
  position c upper_hex_alphabet.

Definition is_upper_hex (c : ascii) : Prop := upper_hex_value c <> None.

Definition nibble (c : ascii) : Z :=
  match upper_hex_value c with Some d => d | None => 0 end.

(** Big-endian positional value of a digit string. *)
Fixpoint hex_value_from (acc : Z) (s : string) : Z :=
  match s with
  | EmptyString => acc
  | String c r => hex_value_from (acc * 16 + nibble c) r
  end.

Definition hex_value (s : string) : Z := hex_value_from 0 s.

Fixpoint chars (s : string) : list ascii :=
  match s with
  | EmptyString => []
  | String c r => c :: chars r
  end.

(** [s] is the fixed-width representation of [v]: exactly 16 characters,
    each one of [0-9A-F], whose positional value is [v]. *)
Definition is_hex16_of (s : string) (v : Z) : Prop :=
  String.length s = 16%nat /\ Forall is_upper_hex (chars s) /\ hex_value s = v.

(** The upper-case digit of a value below 16. *)
Definition upper_hex_char (d : Z) : ascii :=
  match d with
  | 0 => "0" | 1 => "1" | 2 => "2" | 3 => "3" | 4 => "4" | 5 => "5"
  | 6 => "6" | 7 => "7" | 8 => "8" | 9 => "9" | 10 => "A" | 11 => "B"
  | 12 => "C" | 13 => "D" | 14 => "E" | _ => "F"
  end%char.

(** The [n] least significant hexadecimal digits of [v], most
    significant first, written in front of [acc]. *)
Fixpoint fixed_hex (n : nat) (v : Z) (acc : string) : string :=
  match n with
  | O => acc
  | S n' => fixed_hex n' (v / 16) (String (upper_hex_char (v mod 16)) acc)
  end.

(** The word a triple is packed into, in unbounded arithmetic: tag and
    ledger index in the upper half, then the transaction index, then
    the network id. *)
Definition packed (l t n : Z) : Z :=
  (0xC0000000 + l) * 2 ^ 32 + t * 2 ^ 16 + n.

End HexSpec.

Import Cxx Ctim HexSpec.

(** The outcome of [decodeCTIM], whatever the state: it reads nothing
    but its argument. *)
Definition decoded (ctim : ctim_arg) : result (option (Z * Z * Z)) :=
  match ctim with
  | StringArg s =>
      Ret (if (String.length s =? 16)%nat && regex_match_class_plus class_0_9A_F s
           then decodeCTIM_value (hex_value s)
           else None)
  | IntegralArg v => Ret (decodeCTIM_value (to_uint64 v))
  | OtherArg => Ret None
  | NullPointerArg => Terminate
  end.

(** Triples compared by ledger index, then transaction index, then
    network id. *)
Definition triple_lt (a b : Z * Z * Z) : Prop :=
  let '(l, t, n) := a in
  let '(l', t', n') := b in
  l < l' \/ (l = l' /\ (t < t' \/ (t = t' /\ n < n'))).

(** The range of a signed 64-bit argument of [decodeCTIM]. *)
Definition is_int64 (z : Z) : Prop := - 2 ^ 63 <= z < 2 ^ 63.

(* ================================================================== *)
(** ** Facts about bit operations on 64-bit words *)

Section BitFacts.

(** A mask of [k] ones placed at bit [p] selects the [k]-bit field at
    that position. *)
Lemma land_shifted_ones (v p k : Z) :
  0 <= p -> 0 <= k ->
  Z.land v (Z.shiftl (Z.ones k) p) = (v / 2 ^ p) mod 2 ^ k * 2 ^ p.
Proof.
  intros Hp Hk.
  rewrite <- Z.shiftl_mul_pow2, <- Z.land_ones, <- Z.shiftr_div_pow2 by assumption.
  apply Z.bits_inj'; intros i Hi.
  rewrite Z.land_spec.
  destruct (Z.lt_ge_cases i p) as [Hlt | Hge].
  - rewrite !Z.shiftl_spec_low by assumption. apply andb_false_r.
  - rewrite !Z.shiftl_spec by assumption.
    rewrite Z.land_spec, Z.shiftr_spec by lia.
    replace (i - p + p) with i by lia. reflexivity.
Qed.

Lemma tag_field (v : Z) :
  Z.land v 0xF000000000000000 = (v / 2 ^ 60) mod 16 * 2 ^ 60.
Proof. exact (land_shifted_ones v 60 4 ltac:(lia) ltac:(lia)). Qed.

(** The tag test of [decodeCTIM], as an interval of 64-bit words. *)
Lemma tag_test_interval (v : Z) :
  is_uint64 v ->
  (Z.land v 0xF000000000000000 = 0xC000000000000000
   <-> 0xC000000000000000 <= v <= 0xCFFFFFFFFFFFFFFF).
Proof.
  unfold is_uint64; intros Hv. rewrite tag_field.
  change (2 ^ 64) with 18446744073709551616 in Hv.
  change (2 ^ 60) with 1152921504606846976.
  split; intros H; Z.to_euclidean_division_equations; lia.
Qed.

Lemma field_ledger (v : Z) :
  Z.land (Z.shiftr v 32) 0xFFFFFFF = (v / 2 ^ 32) mod 2 ^ 28.
Proof.
  rewrite Z.shiftr_div_pow2 by lia.
  exact (Z.land_ones _ 28 ltac:(lia)).
Qed.

Lemma field_txn (v : Z) :
  Z.land (Z.shiftr v 16) 0xFFFF = (v / 2 ^ 16) mod 2 ^ 16.
Proof.
  rewrite Z.shiftr_div_pow2 by lia.
  exact (Z.land_ones _ 16 ltac:(lia)).
Qed.

Lemma field_network (v : Z) : Z.land v 0xFFFF = v mod 2 ^ 16.
Proof. exact (Z.land_ones _ 16 ltac:(lia)). Qed.

(** Bitwise or with a field that fits below the shift is addition. *)
Lemma lor_shiftl_low (a b k : Z) :
  0 <= k -> 0 <= b < 2 ^ k ->
  Z.lor (Z.shiftl a k) b = a * 2 ^ k + b.
Proof.
  intros Hk Hb.
  assert (Hdisj : Z.land (Z.shiftl a k) b = 0).
  { apply Z.bits_inj'; intros i Hi.
    rewrite Z.land_spec, Z.bits_0.
    destruct (Z.lt_ge_cases i k) as [Hlt | Hge].
    - now rewrite Z.shiftl_spec_low.
    - rewrite <- (Z.mod_small b (2 ^ k)) by assumption.
      rewrite Z.mod_pow2_bits_high by lia. apply andb_false_r. }
  rewrite <- Z.lxor_lor, <- Z.add_nocarry_lxor by assumption.
  now rewrite Z.shiftl_mul_pow2.
Qed.

Lemma wrap_small (w z : Z) : 0 <= z < 2 ^ w -> wrap w z = z.
Proof. intros H. unfold wrap. now apply Z.mod_small. Qed.

End BitFacts.

(* ================================================================== *)
(** ** Characters and digits *)

Ltac each_ascii c :=
  destruct c as [[] [] [] [] [] [] [] []]; vm_compute.

Ltac below_16 d :=
  assert (d = 0 \/ d = 1 \/ d = 2 \/ d = 3 \/ d = 4 \/ d = 5 \/ d = 6 \/ d = 7
          \/ d = 8 \/ d = 9 \/ d = 10 \/ d = 11 \/ d = 12 \/ d = 13 \/ d = 14
          \/ d = 15) by lia.

Section Characters.

(** The character class of the regular expression is the set of
    upper-case hexadecimal digits. *)
Lemma class_is_upper_hex (c : ascii) :
  class_0_9A_F c = match upper_hex_value c with Some _ => true | None => false end.
Proof. each_ascii c; reflexivity. Qed.

Lemma class_true (c : ascii) : class_0_9A_F c = true <-> is_upper_hex c.
Proof.
  rewrite class_is_upper_hex. unfold is_upper_hex.
  destruct (upper_hex_value c); split; congruence.
Qed.

(** On that class [strtoull] reads the digit the specification reads. *)
Lemma digit_value_class (c : ascii) :
  class_0_9A_F c = true -> digit_value c = Some (nibble c).
Proof. each_ascii c; intros H; solve [reflexivity | discriminate H]. Qed.

Lemma nibble_range (c : ascii) : 0 <= nibble c < 16.
Proof.
  destruct c as [[] [] [] [] [] [] [] []];
    match goal with |- 0 <= ?n < 16 => let v := eval vm_compute in n in change n with v end;
    lia.
Qed.

(** No character of the class is white space, a sign, or the [x] of a
    base prefix. *)
Lemma class_plain (c : ascii) :
  class_0_9A_F c = true ->
  isspace c = false /\ Ascii.eqb c "-" = false /\ Ascii.eqb c "+" = false
  /\ Ascii.eqb c "x" = false /\ Ascii.eqb c "X" = false.
Proof.
  each_ascii c; intros H;
    solve [discriminate H | repeat split; reflexivity].
Qed.

Lemma hex_digit_upper (d : Z) :
  0 <= d < 16 -> hex_digit true d = upper_hex_char d.
Proof. intros H. below_16 d. intuition (subst; reflexivity). Qed.

Lemma upper_hex_value_char (d : Z) :
  0 <= d < 16 -> upper_hex_value (upper_hex_char d) = Some d.
Proof. intros H. below_16 d. intuition (subst; reflexivity). Qed.

Lemma nibble_char (d : Z) : 0 <= d < 16 -> nibble (upper_hex_char d) = d.
Proof. intros H. unfold nibble. now rewrite upper_hex_value_char. Qed.

Lemma char_of_nibble (c : ascii) :
  is_upper_hex c -> upper_hex_char (nibble c) = c.
Proof.
  unfold is_upper_hex.
  each_ascii c; intros H; solve [reflexivity | exfalso; apply H; reflexivity].
Qed.

Lemma all_chars_Forall (s : string) :
  all_chars class_0_9A_F s = true <-> Forall is_upper_hex (chars s).
Proof.
  induction s as [| c r IH]; simpl.
  - split; [constructor | reflexivity].
  - rewrite andb_true_iff, IH, class_true. split.
    + intros [Hc Hr]. now constructor.
    + intros H. inversion H. now split.
Qed.

Lemma all_chars_In (p : ascii -> bool) (s : string) (c : ascii) :
  In c (chars s) -> p c = false -> all_chars p s = false.
Proof.
  induction s as [| c' r IH]; simpl; [tauto |].
  intros [-> | Hin] Hp.
  - now rewrite Hp.
  - rewrite (IH Hin Hp). apply andb_false_r.
Qed.

End Characters.

(* ================================================================== *)
(** ** Fixed-width digit strings *)

Section FixedHex.

Lemma pow16_succ (n : nat) : 16 ^ Z.of_nat (S n) = 16 * 16 ^ Z.of_nat n.
Proof. rewrite Nat2Z.inj_succ, Z.pow_succ_r by lia. reflexivity. Qed.

Lemma pow16_pos (n : nat) : 0 < 16 ^ Z.of_nat n.
Proof. apply Z.pow_pos_nonneg; lia. Qed.

Lemma length_fixed_hex (n : nat) :
  forall v acc, String.length (fixed_hex n v acc) = (n + String.length acc)%nat.
Proof.
  induction n as [| n IH]; intros v acc; simpl; [reflexivity |].
  rewrite IH. simpl. lia.
Qed.

Lemma chars_fixed_hex (n : nat) :
  forall v acc,
    Forall is_upper_hex (chars acc) ->
    Forall is_upper_hex (chars (fixed_hex n v acc)).
Proof.
  induction n as [| n IH]; intros v acc Hacc; simpl; [assumption |].
  apply IH. simpl. constructor; [| assumption].
  unfold is_upper_hex.
  rewrite upper_hex_value_char by (apply Z.mod_pos_bound; lia).
  discriminate.
Qed.

(** The most significant of [S n] digits comes first. *)
Lemma fixed_hex_head (n : nat) :
  forall v acc,
    fixed_hex (S n) v acc
    = String (upper_hex_char ((v / 16 ^ Z.of_nat n) mod 16)) (fixed_hex n v acc).
Proof.
  induction n as [| n IH]; intros v acc.
  - simpl. now rewrite Z.div_1_r.
  - change (fixed_hex (S (S n)) v acc)
      with (fixed_hex (S n) (v / 16) (String (upper_hex_char (v mod 16)) acc)).
    rewrite IH. rewrite pow16_succ.
    rewrite Z.div_div by (pose proof (pow16_pos n); lia).
    reflexivity.
Qed.

Lemma fill_chars_shift (j : nat) (f : ascii) (s : string) :
  (fill_chars j f ++ String f s)%string = String f (fill_chars j f ++ s)%string.
Proof. induction j as [| j IH]; simpl; [reflexivity | now rewrite IH]. Qed.

Lemma fixed_hex_zero (j : nat) :
  forall acc, fixed_hex j 0 acc = (fill_chars j "0" ++ acc)%string.
Proof.
  induction j as [| j IH]; intros acc; simpl; [reflexivity |].
  change (0 / 16) with 0. change (upper_hex_char (0 mod 16)) with "0"%char.
  rewrite IH. apply fill_chars_shift.
Qed.

(** Digits beyond the size of the value are zeros. *)
Lemma fixed_hex_pad (k j : nat) :
  forall v acc,
    0 <= v < 16 ^ Z.of_nat k ->
    fixed_hex (k + j) v acc = (fill_chars j "0" ++ fixed_hex k v acc)%string.
Proof.
  induction k as [| k IH]; intros v acc Hv.
  - simpl in Hv. replace v with 0 by lia. apply fixed_hex_zero.
  - simpl. apply IH. rewrite pow16_succ in Hv.
    split; [apply Z.div_pos; lia | apply Z.div_lt_upper_bound; lia].
Qed.

(** The conversion loop of the stream produces the digits of the value
    without leading zeros: [k] digits, where [k] is the least positive
    number of digits that hold [v]. The fuel is enough whenever [v]
    has at most [fuel] digits. *)
Lemma hex_digits_fixed (fuel : nat) :
  forall v acc,
    (1 <= fuel)%nat ->
    0 <= v < 16 ^ Z.of_nat fuel ->
    exists k : nat,
      (1 <= k <= fuel)%nat
      /\ v < 16 ^ Z.of_nat k
      /\ (k = 1%nat \/ 16 ^ (Z.of_nat k - 1) <= v)
      /\ hex_digits fuel true v acc = fixed_hex k v acc.
Proof.
  induction fuel as [| fuel IH]; intros v acc Hfuel Hv.
  - lia.
  - rewrite pow16_succ in Hv.
    assert (Hd : 0 <= v mod 16 < 16) by (apply Z.mod_pos_bound; lia).
    simpl. rewrite (hex_digit_upper _ Hd).
    destruct (Z.eqb_spec (v / 16) 0) as [Hq | Hq].
    + exists 1%nat. split; [lia | split; [| split; [now left | reflexivity]]].
      change (16 ^ Z.of_nat 1) with 16. Z.to_euclidean_division_equations; lia.
    + assert (Hq' : 0 < v / 16 < 16 ^ Z.of_nat fuel).
      { split.
        - assert (0 <= v / 16) by (apply Z.div_pos; lia). lia.
        - apply Z.div_lt_upper_bound; lia. }
      assert (Hfuel' : (1 <= fuel)%nat).
      { destruct fuel; [simpl in Hq'; lia | lia]. }
      destruct (IH (v / 16) (String (upper_hex_char (v mod 16)) acc))
        as (k & Hk & Hlt & Hmin & Heq); [assumption | lia |].
      exists (S k). split; [lia | split; [| split]].
      * rewrite pow16_succ. Z.to_euclidean_division_equations; lia.
      * right. replace (Z.of_nat (S k) - 1) with (Z.of_nat k) by lia.
        destruct Hmin as [-> | Hmin].
        -- change (16 ^ Z.of_nat 1) with 16. Z.to_euclidean_division_equations; lia.
        -- replace (Z.of_nat k) with (Z.succ (Z.of_nat k - 1)) by lia.
           rewrite Z.pow_succ_r by lia.
           Z.to_euclidean_division_equations; nia.
      * exact Heq.
Qed.

(** What [encodeCTIM] prints for a 64-bit word: its 16 digits. *)
Lemma put_hex_uint64_fixed (v : Z) :
  is_uint64 v -> put_hex_uint64 true "0" 16 v = fixed_hex 16 v EmptyString.
Proof.
  unfold is_uint64; intros Hv.
  change (2 ^ 64) with (16 ^ 16) in Hv.
  destruct (hex_digits_fixed 64 v EmptyString) as (k & Hk & Hlt & Hmin & Heq).
  { lia. }
  { split; [lia |]. apply Z.lt_trans with (16 ^ 16); [lia | reflexivity]. }
  assert (Hk16 : (k <= 16)%nat).
  { destruct Hmin as [-> | Hmin]; [lia |].
    destruct (Nat.le_gt_cases k 16) as [? | Hgt]; [assumption | exfalso].
    assert (16 ^ 16 <= 16 ^ (Z.of_nat k - 1)) by (apply Z.pow_le_mono_r; lia).
    lia. }
  unfold put_hex_uint64, pad_left. rewrite Heq, length_fixed_hex. simpl String.length.
  rewrite <- (fixed_hex_pad k (16 - (k + 0))) by lia.
  f_equal. lia.
Qed.

End FixedHex.

(* ================================================================== *)
(** ** Positional value *)

Section Value.

Lemma hex_value_from_split (s : string) :
  forall a,
    hex_value_from a s = a * 16 ^ Z.of_nat (String.length s) + hex_value s.
Proof.
  unfold hex_value.
  induction s as [| c r IH]; intros a; simpl String.length.
  - simpl. lia.
  - cbn [hex_value_from]. rewrite IH, (IH (0 * 16 + nibble c)), pow16_succ. lia.
Qed.

Lemma hex_value_range (s : string) :
  0 <= hex_value s < 16 ^ Z.of_nat (String.length s).
Proof.
  unfold hex_value.
  induction s as [| c r IH]; simpl String.length.
  - simpl. lia.
  - cbn [hex_value_from]. rewrite hex_value_from_split, pow16_succ.
    unfold hex_value. pose proof (nibble_range c). pose proof (pow16_pos (String.length r)).
    nia.
Qed.

Lemma hex_value_from_ge (s : string) (a : Z) : 0 <= a -> a <= hex_value_from a s.
Proof.
  intros Ha. rewrite hex_value_from_split.
  pose proof (hex_value_range s). pose proof (pow16_pos (String.length s)). nia.
Qed.

(** A string of 16 digits always denotes a 64-bit word. *)
Lemma hex_value_uint64 (s : string) :
  String.length s = 16%nat -> is_uint64 (hex_value s).
Proof.
  intros H. pose proof (hex_value_range s) as R. rewrite H in R. exact R.
Qed.

Lemma hex_value_from_fixed (n : nat) :
  forall v acc a,
    hex_value_from a (fixed_hex n v acc)
    = hex_value_from (a * 16 ^ Z.of_nat n + v mod 16 ^ Z.of_nat n) acc.
Proof.
  induction n as [| n IH]; intros v acc a.
  - simpl. rewrite Z.mod_1_r. f_equal. lia.
  - simpl fixed_hex. rewrite IH. cbn [hex_value_from].
    rewrite nibble_char by (apply Z.mod_pos_bound; lia).
    f_equal. rewrite pow16_succ.
    rewrite (Z.rem_mul_r v 16 (16 ^ Z.of_nat n)) by (pose proof (pow16_pos n); lia).
    lia.
Qed.

Lemma hex_value_fixed16 (v : Z) :
  is_uint64 v -> hex_value (fixed_hex 16 v EmptyString) = v.
Proof.
  unfold is_uint64, hex_value; intros Hv.
  rewrite hex_value_from_fixed. simpl hex_value_from.
  change (16 ^ Z.of_nat 16) with (2 ^ 64). rewrite Z.mod_small by assumption. lia.
Qed.

(** The printed form of a 64-bit word is its 16-digit representation. *)
Lemma put_hex_uint64_spec (v : Z) :
  is_uint64 v -> is_hex16_of (put_hex_uint64 true "0" 16 v) v.
Proof.
  intros Hv. rewrite (put_hex_uint64_fixed v Hv). repeat split.
  - apply chars_fixed_hex. constructor.
  - now apply hex_value_fixed16.
Qed.

(** Two representations of the same word are the same string. *)
Lemma hex_value_inj (s1 : string) :
  forall s2,
    String.length s1 = String.length s2 ->
    Forall is_upper_hex (chars s1) -> Forall is_upper_hex (chars s2) ->
    hex_value s1 = hex_value s2 -> s1 = s2.
Proof.
  unfold hex_value.
  induction s1 as [| c1 r1 IH]; intros [| c2 r2] Hlen H1 H2 Hv;
    simpl in Hlen; try discriminate; [reflexivity |].
  injection Hlen as Hlen.
  cbn [hex_value_from] in Hv.
  rewrite (hex_value_from_split r1), (hex_value_from_split r2), Hlen in Hv.
  pose proof (hex_value_range r1) as R1. pose proof (hex_value_range r2) as R2.
  rewrite Hlen in R1.
  pose proof (nibble_range c1). pose proof (nibble_range c2).
  assert (Hn : nibble c1 = nibble c2) by nia.
  assert (Hr : hex_value r1 = hex_value r2) by nia.
  simpl in H1, H2. inversion H1 as [| ? ? Hc1 Hr1]. inversion H2 as [| ? ? Hc2 Hr2]. subst.
  f_equal.
  - rewrite <- (char_of_nibble c1 Hc1), <- (char_of_nibble c2 Hc2). now rewrite Hn.
  - apply IH; assumption.
Qed.

End Value.

(* ================================================================== *)
(** ** The packed word *)

Section Packing.

Variables l t n : Z.
Hypothesis Hl : 0 <= l <= 0xFFFFFFF.
Hypothesis Ht : 0 <= t <= 0xFFFF.
Hypothesis Hn : 0 <= n <= 0xFFFF.

Lemma packed_range : 0xC000000000000000 <= packed l t n <= 0xCFFFFFFFFFFFFFFF.
Proof. unfold packed. lia. Qed.

Lemma packed_uint64 : is_uint64 (packed l t n).
Proof. pose proof packed_range. unfold is_uint64. lia. Qed.

(** No step of the sum in [encodeCTIM] wraps around. *)
Lemma encode_sum_exact :
  add64 (add64 (shl64 (add64 0xC0000000 (to_uint64 l)) 32)
               (shl64 (to_uint64 t) 16))
        (to_uint64 n)
  = packed l t n.
Proof.
  unfold add64, shl64, to_uint64, packed.
  rewrite !Z.shiftl_mul_pow2 by lia.
  rewrite (wrap_small 64 l), (wrap_small 64 t), (wrap_small 64 n) by lia.
  rewrite (wrap_small 64 (0xC0000000 + l)) by lia.
  rewrite (wrap_small 64 ((0xC0000000 + l) * 2 ^ 32)) by lia.
  rewrite (wrap_small 64 (t * 2 ^ 16)) by lia.
  rewrite (wrap_small 64 ((0xC0000000 + l) * 2 ^ 32 + t * 2 ^ 16)) by lia.
  apply wrap_small. lia.
Qed.

(** The specification's formula with [|] agrees with the sum. *)
Lemma packed_lor :
  Z.lor (Z.lor (Z.shiftl (0xC0000000 + l) 32) (Z.shiftl t 16)) n = packed l t n.
Proof.
  rewrite (Z.shiftl_mul_pow2 t) by lia.
  rewrite (lor_shiftl_low _ (t * 2 ^ 16) 32) by lia.
  assert (E : (0xC0000000 + l) * 2 ^ 32 + t * 2 ^ 16
              = Z.shiftl ((0xC0000000 + l) * 2 ^ 16 + t) 16)
    by (rewrite Z.shiftl_mul_pow2; lia).
  rewrite E, lor_shiftl_low by lia.
  unfold packed. lia.
Qed.

Lemma packed_fields :
  (packed l t n / 2 ^ 32) mod 2 ^ 28 = l
  /\ (packed l t n / 2 ^ 16) mod 2 ^ 16 = t
  /\ packed l t n mod 2 ^ 16 = n.
Proof.
  unfold packed.
  change (2 ^ 32) with 4294967296. change (2 ^ 28) with 268435456.
  change (2 ^ 16) with 65536.
  repeat split; Z.to_euclidean_division_equations; lia.
Qed.

End Packing.

(** A tagged word is the packing of its own fields. *)
Lemma packed_of_fields (v : Z) :
  0xC000000000000000 <= v <= 0xCFFFFFFFFFFFFFFF ->
  packed ((v / 2 ^ 32) mod 2 ^ 28) ((v / 2 ^ 16) mod 2 ^ 16) (v mod 2 ^ 16) = v.
Proof.
  intros Hv. unfold packed.
  change (2 ^ 32) with 4294967296. change (2 ^ 28) with 268435456.
  change (2 ^ 16) with 65536.
  Z.to_euclidean_division_equations; lia.
Qed.

(* ================================================================== *)
(** ** [std::stoull] on strings that passed the guards *)

Section Parsing.

(** As long as the value stays within [ULLONG_MAX], the digit loop of
    [strtoull] reads a string of the class to its end and computes its
    positional value. *)
Lemma accumulate_class (s : string) :
  forall acc any,
    all_chars class_0_9A_F s = true ->
    0 <= acc ->
    hex_value_from acc s <= ULLONG_MAX ->
    accumulate 16 s acc any false
    = (hex_value_from acc s,
       match s with EmptyString => any | String _ _ => true end,
       false).
Proof.
  induction s as [| c r IH]; intros acc any Hcls Hacc Hmax; [reflexivity |].
  simpl in Hcls. apply andb_true_iff in Hcls as [Hc Hr].
  pose proof (nibble_range c) as Hn.
  cbn [accumulate hex_value_from] in *.
  rewrite (digit_value_class c Hc).
  replace (nibble c <? 16) with true by (symmetry; apply Z.ltb_lt; lia).
  assert (Hstep : acc * 16 + nibble c <= ULLONG_MAX).
  { apply Z.le_trans with (hex_value_from (acc * 16 + nibble c) r); [| assumption].
    apply hex_value_from_ge. lia. }
  replace (acc * 16 + nibble c >? ULLONG_MAX) with false
    by (symmetry; rewrite Z.gtb_ltb; apply Z.ltb_ge; assumption).
  rewrite IH by (assumption || lia).
  now destruct r.
Qed.

Lemma skip_space_class (s : string) :
  all_chars class_0_9A_F s = true -> skip_space s = s.
Proof.
  destruct s as [| c r]; [reflexivity |].
  cbn [all_chars skip_space]. intros H. apply andb_true_iff in H as [Hc _].
  destruct (class_plain c Hc) as (-> & _). reflexivity.
Qed.

Lemma skip_sign_class (s : string) :
  all_chars class_0_9A_F s = true -> skip_sign s = (false, s).
Proof.
  destruct s as [| c r]; [reflexivity |].
  cbn [all_chars]. unfold skip_sign. intros H. apply andb_true_iff in H as [Hc _].
  destruct (class_plain c Hc) as (_ & -> & -> & _). reflexivity.
Qed.

Lemma skip_prefix_class (s : string) :
  all_chars class_0_9A_F s = true -> skip_prefix 16 s = s.
Proof.
  destruct s as [| c0 [| c1 [| c2 r]]]; try reflexivity.
  cbn [all_chars]. intros H.
  apply andb_true_iff in H as [_ H]. apply andb_true_iff in H as [Hc _].
  unfold skip_prefix. change (16 =? 16) with true. cbv iota.
  destruct (class_plain c1 Hc) as (_ & _ & _ & -> & ->).
  now rewrite andb_false_r.
Qed.

(** [strtoull] converts the whole string, leaves [errno] alone. *)
Lemma strtoull_class (s : string) (w : World) :
  s <> EmptyString ->
  all_chars class_0_9A_F s = true ->
  hex_value s <= ULLONG_MAX ->
  strtoull s 16 w = (Ret (hex_value s, true), w).
Proof.
  intros Hne Hcls Hmax. unfold strtoull.
  rewrite (skip_space_class s Hcls), (skip_sign_class s Hcls),
    (skip_prefix_class s Hcls).
  rewrite accumulate_class by (assumption || lia).
  destruct s; [congruence | reflexivity].
Qed.

(** [std::stoull] returns the positional value, throws nothing, and
    hands [errno] back as it found it. *)
Lemma stoull_class (s : string) (w : World) :
  s <> EmptyString ->
  all_chars class_0_9A_F s = true ->
  hex_value s <= ULLONG_MAX ->
  stoull s 16 w = (Ret (hex_value s), w).
Proof.
  intros Hne Hcls Hmax. unfold stoull, bind, get_errno, set_errno.
  rewrite (strtoull_class s _ Hne Hcls Hmax).
  unfold restore_errno, bind, get_errno, set_errno, ret. simpl.
  destruct w as [e]. reflexivity.
Qed.

Lemma guards_pass (s : string) :
  String.length s = 16%nat ->
  Forall is_upper_hex (chars s) ->
  s <> EmptyString
  /\ all_chars class_0_9A_F s = true
  /\ regex_match_class_plus class_0_9A_F s = true
  /\ hex_value s <= ULLONG_MAX.
Proof.
  intros Hlen Hhex.
  assert (Hcls : all_chars class_0_9A_F s = true) by now apply all_chars_Forall.
  pose proof (hex_value_uint64 s Hlen) as Hv. unfold is_uint64 in Hv.
  repeat split.
  - intros ->. discriminate Hlen.
  - assumption.
  - destruct s; [discriminate Hlen | exact Hcls].
  - unfold ULLONG_MAX. change (2 ^ 64) with 18446744073709551616 in Hv. lia.
Qed.

End Parsing.

(* ================================================================== *)
(** ** The two functions, path by path *)

Section Paths.

Lemma encodeCTIM_rejects (l t n : Z) (w : World) :
  l > 0xFFFFFFF \/ t > 0xFFFF \/ n > 0xFFFF ->
  encodeCTIM l t n w = (Ret None, w).
Proof.
  intros H. unfold encodeCTIM, noexcept.
  destruct (Z.gtb_spec l 0xFFFFFFF); [reflexivity |].
  destruct (Z.gtb_spec t 0xFFFF); [reflexivity |].
  destruct (Z.gtb_spec n 0xFFFF); [reflexivity |].
  lia.
Qed.

Lemma encodeCTIM_accepts (l t n : Z) (w : World) :
  0 <= l <= 0xFFFFFFF -> 0 <= t <= 0xFFFF -> 0 <= n <= 0xFFFF ->
  encodeCTIM l t n w
  = (Ret (Some (put_hex_uint64 true "0" 16 (packed l t n))), w).
Proof.
  intros Hl Ht Hn. unfold encodeCTIM, noexcept.
  destruct (Z.gtb_spec l 0xFFFFFFF); [lia |].
  destruct (Z.gtb_spec t 0xFFFF); [lia |].
  destruct (Z.gtb_spec n 0xFFFF); [lia |].
  rewrite (encode_sum_exact l t n Hl Ht Hn). reflexivity.
Qed.

(** A successful call had its three arguments within the bounds. *)
Lemma encodeCTIM_success (l t n : Z) (w w' : World) (s : string) :
  encodeCTIM l t n w = (Ret (Some s), w') ->
  l <= 0xFFFFFFF /\ t <= 0xFFFF /\ n <= 0xFFFF.
Proof.
  unfold encodeCTIM, noexcept.
  destruct (Z.gtb_spec l 0xFFFFFFF); [discriminate |].
  destruct (Z.gtb_spec t 0xFFFF); [discriminate |].
  destruct (Z.gtb_spec n 0xFFFF); [discriminate |].
  intros _. lia.
Qed.

Lemma decodeCTIM_value_tagged (v : Z) :
  0xC000000000000000 <= v <= 0xCFFFFFFFFFFFFFFF ->
  decodeCTIM_value v
  = Some ((v / 2 ^ 32) mod 2 ^ 28, (v / 2 ^ 16) mod 2 ^ 16, v mod 2 ^ 16).
Proof.
  intros Hv. unfold decodeCTIM_value.
  assert (Hu : is_uint64 v) by (unfold is_uint64; lia).
  destruct (Z.gtb_spec v 0xFFFFFFFFFFFFFFFF); [lia |].
  rewrite (proj2 (Z.eqb_eq _ _) (proj2 (tag_test_interval v Hu) Hv)).
  simpl orb. cbv iota.
  rewrite field_ledger, field_txn, field_network.
  unfold to_uint32, to_uint16.
  rewrite !wrap_small; [reflexivity | | |];
    try (apply Z.mod_pos_bound; lia).
  pose proof (Z.mod_pos_bound (v / 2 ^ 32) (2 ^ 28) ltac:(lia)). lia.
Qed.

Lemma decodeCTIM_value_untagged (v : Z) :
  Z.land v 0xF000000000000000 <> 0xC000000000000000 ->
  decodeCTIM_value v = None.
Proof.
  intros Hv. unfold decodeCTIM_value.
  rewrite (proj2 (Z.eqb_neq _ _) Hv). now rewrite orb_true_r.
Qed.

Lemma decodeCTIM_integral (v : Z) (w : World) :
  is_uint64 v ->
  decodeCTIM (IntegralArg v) w = (Ret (decodeCTIM_value v), w).
Proof.
  intros Hv. unfold decodeCTIM, noexcept, ret, to_uint64.
  now rewrite wrap_small.
Qed.

(** The string path on a string that passes both guards is the
    integral path on its positional value. *)
Lemma decodeCTIM_string (s : string) (w : World) :
  String.length s = 16%nat ->
  Forall is_upper_hex (chars s) ->
  decodeCTIM (StringArg s) w = (Ret (decodeCTIM_value (hex_value s)), w).
Proof.
  intros Hlen Hhex.
  destruct (guards_pass s Hlen Hhex) as (Hne & Hcls & Hre & Hmax).
  unfold decodeCTIM, noexcept, bind.
  rewrite Hlen, Hre.
  change (negb (16 =? 16)%nat) with false. change (negb true) with false.
  cbv beta iota.
  rewrite (stoull_class s w Hne Hcls Hmax). reflexivity.
Qed.

Lemma decodeCTIM_bad_length (s : string) (w : World) :
  String.length s <> 16%nat -> decodeCTIM (StringArg s) w = (Ret None, w).
Proof.
  intros H. unfold decodeCTIM, noexcept.
  now rewrite (proj2 (Nat.eqb_neq _ _) H).
Qed.

Lemma decodeCTIM_bad_char (s : string) (c : ascii) (w : World) :
  In c (chars s) -> ~ is_upper_hex c ->
  decodeCTIM (StringArg s) w = (Ret None, w).
Proof.
  intros Hin Hc. unfold decodeCTIM, noexcept.
  destruct (negb (String.length s =? 16)%nat); [reflexivity |].
  assert (Hcls : class_0_9A_F c = false).
  { destruct (class_0_9A_F c) eqn:E; [| reflexivity].
    exfalso. apply Hc. now apply class_true. }
  unfold regex_match_class_plus.
  destruct s as [| c0 r]; [reflexivity |].
  now rewrite (all_chars_In _ _ c Hin Hcls).
Qed.

End Paths.

(* ================================================================== *)
(** ** Totality and purity *)

Section Totality.

Lemma lower_not_upper_hex (c : ascii) :
  in_range "a" "f" c = true -> ~ is_upper_hex c.
Proof.
  unfold is_upper_hex.
  each_ascii c; intros H; solve [discriminate H | intros N; apply N; reflexivity].
Qed.

Lemma regex_match_guard (s : string) :
  regex_match_class_plus class_0_9A_F s = true ->
  Forall is_upper_hex (chars s).
Proof.
  intros H. apply all_chars_Forall.
  destruct s; [discriminate H | exact H].
Qed.

Lemma decodeCTIM_returns (ctim : ctim_arg) (w : World) :
  decodeCTIM ctim w = (decoded ctim, w).
Proof.
  destruct ctim as [s | v | |]; try reflexivity.
  unfold decoded.
  destruct (Nat.eqb_spec (String.length s) 16) as [Hlen | Hlen].
  - destruct (regex_match_class_plus class_0_9A_F s) eqn:Hre.
    + apply decodeCTIM_string; [assumption | now apply regex_match_guard].
    + unfold decodeCTIM, noexcept. now rewrite Hlen, Hre.
  - now apply decodeCTIM_bad_length.
Qed.

Lemma encodeCTIM_returns (l t n : Z) (w : World) :
  exists r, encodeCTIM l t n w = (Ret r, w).
Proof.
  unfold encodeCTIM, noexcept.
  destruct (l >? 0xFFFFFFF); [now eexists |].
  destruct (t >? 0xFFFF); [now eexists |].
  destruct (n >? 0xFFFF); now eexists.
Qed.

End Totality.

(* ================================================================== *)
(** ** The model at work *)

(** [std::stoull] does throw when it is reached without the guards, and
    under [noexcept] that ends the process: nothing to convert, and a
    value of 17 digits. *)
Example stoull_invalid_argument (w : World) :
  stoull "G" 16 w = (Throw invalid_argument, w).
Proof. destruct w. reflexivity. Qed.

Example stoull_out_of_range :
  stoull "CFFFFFFFFFFFFFFFF" 16 (mkWorld 0) = (Throw out_of_range, mkWorld ERANGE).
Proof. reflexivity. Qed.

Example stoull_unguarded_terminates :
  noexcept (stoull "CFFFFFFFFFFFFFFFF" 16) (mkWorld 0) = (Terminate, mkWorld ERANGE).
Proof. reflexivity. Qed.

(** It also reads what the guards of [decodeCTIM] keep away from it:
    white space, a sign, a prefix, lower-case digits. *)
Example stoull_lenient :
  stoull " +0xc0ca" 16 (mkWorld 0) = (Ret 0xC0CA, mkWorld 0)
  /\ stoull "-1" 16 (mkWorld 0) = (Ret 0xFFFFFFFFFFFFFFFF, mkWorld 0)
  /\ stoull "0x" 16 (mkWorld 0) = (Ret 0, mkWorld 0).
Proof. repeat split; reflexivity. Qed.

(** The assertions of [main], test cases 5 to 14. *)
Example main_decode_strings :
  let w := mkWorld 0 in
  decodeCTIM (StringArg "CFFFFFFFFFFFFFFF") w = (Ret (Some (0xFFFFFFF, 0xFFFF, 0xFFFF)), w)
  /\ decodeCTIM (StringArg "C000000000000000") w = (Ret (Some (0, 0, 0)), w)
  /\ decodeCTIM (StringArg "C000000100020003") w = (Ret (Some (1, 2, 3)), w)
  /\ decodeCTIM (StringArg "C0CA2AA7326FC045") w = (Ret (Some (13249191, 12911, 49221)), w)
  /\ decodeCTIM (StringArg "C003FFFFFFFFFFFG") w = (Ret None, w)
  /\ decodeCTIM (StringArg "C003FFFFFFFFFFF") w = (Ret None, w)
  /\ decodeCTIM (StringArg "CFFFFFFFFFFFFFFFF") w = (Ret None, w)
  /\ decodeCTIM (StringArg "FFFFFFFFFFFFFFFF") w = (Ret None, w).
Proof. repeat split; reflexivity. Qed.

Example main_decode_integers (w : World) :
  decodeCTIM (IntegralArg 0xCFF) w = (Ret None, w)
  /\ decodeCTIM (IntegralArg 0xCFFFFFFFFFFFFFFF) w = (Ret (Some (0xFFFFFFF, 0xFFFF, 0xFFFF)), w)
  /\ decodeCTIM (IntegralArg 0xC000000000000000) w = (Ret (Some (0, 0, 0)), w)
  /\ decodeCTIM (IntegralArg 0xC0CA2AA7326FC045) w = (Ret (Some (13249191, 12911, 49221)), w)
  /\ decodeCTIM (IntegralArg 0xC003FFFFFFFFFFF) w = (Ret None, w)
  /\ decodeCTIM (IntegralArg 0xFFFFFFFFFFFFFFFF) w = (Ret None, w).
Proof. repeat split; reflexivity. Qed.

(* ================================================================== *)
(** ** Properties of the codec *)

(** C1: for every triple within the bounds, [encodeCTIM] succeeds with a
    string of 16 characters, and [decodeCTIM], applied to that string or
    to the 64-bit word it denotes, succeeds and returns the triple. *)
Theorem encode_decode_roundtrip (l t n : Z) (w : World) :
  0 <= l <= 0xFFFFFFF -> 0 <= t <= 0xFFFF -> 0 <= n <= 0xFFFF ->
  exists s : string,
    encodeCTIM l t n w = (Ret (Some s), w)
    /\ String.length s = 16%nat
    /\ decodeCTIM (StringArg s) w = (Ret (Some (l, t, n)), w)
    /\ decodeCTIM (IntegralArg (hex_value s)) w = (Ret (Some (l, t, n)), w).
Proof.
  intros Hl Ht Hn.
  pose proof (packed_uint64 l t n Hl Ht Hn) as Hu.
  destruct (put_hex_uint64_spec _ Hu) as (Hlen & Hhex & Hval).
  destruct (packed_fields l t n Hl Ht Hn) as (Fl & Ft & Fn).
  assert (Hdec : decodeCTIM_value (packed l t n) = Some (l, t, n)).
  { rewrite decodeCTIM_value_tagged by (apply packed_range; assumption).
    now rewrite Fl, Ft, Fn. }
  exists (put_hex_uint64 true "0" 16 (packed l t n)).
  split; [now apply encodeCTIM_accepts |].
  split; [exact Hlen |].
  split.
  - rewrite decodeCTIM_string by assumption. now rewrite Hval, Hdec.
  - rewrite Hval, decodeCTIM_integral by assumption. now rewrite Hdec.
Qed.

Lemma encode_decode_roundtrip_witness :
  exists s : string,
    encodeCTIM 13249191 12911 49221 (mkWorld 0) = (Ret (Some s), mkWorld 0)
    /\ String.length s = 16%nat
    /\ decodeCTIM (StringArg s) (mkWorld 0)
       = (Ret (Some (13249191, 12911, 49221)), mkWorld 0)
    /\ decodeCTIM (IntegralArg (hex_value s)) (mkWorld 0)
       = (Ret (Some (13249191, 12911, 49221)), mkWorld 0).
Proof.
  apply (encode_decode_roundtrip 13249191 12911 49221 (mkWorld 0)); lia.
Defined.

(** C2: for every triple within the bounds, [encodeCTIM] returns the
    16-character upper-case zero-padded hexadecimal representation of
    [((0xC0000000 + ledgerIndex) << 32) | (transactionIndex << 16) | networkId];
    every intermediate value of that formula fits in 64 bits, and the
    representation is the only string with these properties. *)
Theorem encode_formula (l t n : Z) (w : World) :
  0 <= l <= 0xFFFFFFF -> 0 <= t <= 0xFFFF -> 0 <= n <= 0xFFFF ->
  let value :=
    Z.lor (Z.lor (Z.shiftl (0xC0000000 + l) 32) (Z.shiftl t 16)) n in
  is_uint64 (0xC0000000 + l)
  /\ is_uint64 (Z.shiftl (0xC0000000 + l) 32)
  /\ is_uint64 (Z.shiftl t 16)
  /\ is_uint64 value
  /\ exists s : string,
       encodeCTIM l t n w = (Ret (Some s), w)
       /\ is_hex16_of s value
       /\ forall s' : string, is_hex16_of s' value -> s' = s.
Proof.
  intros Hl Ht Hn value.
  assert (Hvalue : value = packed l t n) by (apply packed_lor; assumption).
  pose proof (packed_uint64 l t n Hl Ht Hn) as Hu.
  rewrite Hvalue.
  rewrite !Z.shiftl_mul_pow2 by lia.
  unfold is_uint64 in *.
  split; [lia |]. split; [lia |]. split; [lia |]. split; [exact Hu |].
  exists (put_hex_uint64 true "0" 16 (packed l t n)).
  split; [now apply encodeCTIM_accepts |].
  pose proof (put_hex_uint64_spec _ Hu) as Hspec.
  split; [exact Hspec |].
  intros s' (Hlen' & Hhex' & Hval').
  destruct Hspec as (Hlen & Hhex & Hval).
  apply hex_value_inj; congruence.
Qed.

Lemma encode_formula_witness :
  exists s : string,
    encodeCTIM 1 2 3 (mkWorld 0) = (Ret (Some s), mkWorld 0)
    /\ is_hex16_of s (Z.lor (Z.lor (Z.shiftl (0xC0000000 + 1) 32) (Z.shiftl 2 16)) 3).
Proof.
  destruct (encode_formula 1 2 3 (mkWorld 0)) as (_ & _ & _ & _ & s & He & Hs & _);
    [lia | lia | lia |].
  exists s. split; [exact He | exact Hs].
Defined.

(** C3: on a 64-bit word [v], [decodeCTIM] fails exactly when
    [(v & 0xF000000000000000) != 0xC000000000000000]; otherwise it returns
    [((v >> 32) & 0xFFFFFFF, (v >> 16) & 0xFFFF, v & 0xFFFF)], and each
    component is within its bound. *)
Theorem decode_integral_spec (v : Z) (w : World) :
  is_uint64 v ->
  (Z.land v 0xF000000000000000 = 0xC000000000000000 ->
   decodeCTIM (IntegralArg v) w
   = (Ret (Some (Z.land (Z.shiftr v 32) 0xFFFFFFF,
                 Z.land (Z.shiftr v 16) 0xFFFF,
                 Z.land v 0xFFFF)), w)
   /\ 0 <= Z.land (Z.shiftr v 32) 0xFFFFFFF <= 0xFFFFFFF
   /\ 0 <= Z.land (Z.shiftr v 16) 0xFFFF <= 0xFFFF
   /\ 0 <= Z.land v 0xFFFF <= 0xFFFF)
  /\ (decodeCTIM (IntegralArg v) w = (Ret None, w)
      <-> Z.land v 0xF000000000000000 <> 0xC000000000000000).
Proof.
  intros Hu.
  rewrite decodeCTIM_integral by assumption.
  assert (Htagged :
            Z.land v 0xF000000000000000 = 0xC000000000000000 ->
            decodeCTIM_value v
            = Some (Z.land (Z.shiftr v 32) 0xFFFFFFF,
                    Z.land (Z.shiftr v 16) 0xFFFF,
                    Z.land v 0xFFFF)).
  { intros Htag. apply (tag_test_interval v Hu) in Htag.
    rewrite field_ledger, field_txn, field_network.
    now apply decodeCTIM_value_tagged. }
  split.
  - intros Htag. rewrite (Htagged Htag). split; [reflexivity |].
    rewrite field_ledger, field_txn, field_network.
    pose proof (Z.mod_pos_bound (v / 2 ^ 32) (2 ^ 28) ltac:(lia)).
    pose proof (Z.mod_pos_bound (v / 2 ^ 16) (2 ^ 16) ltac:(lia)).
    pose proof (Z.mod_pos_bound v (2 ^ 16) ltac:(lia)).
    lia.
  - split.
    + intros Hnone Htag. rewrite (Htagged Htag) in Hnone. discriminate Hnone.
    + intros Htag. now rewrite decodeCTIM_value_untagged.
Qed.

Lemma decode_integral_spec_witness :
  decodeCTIM (IntegralArg 0xC0CA2AA7326FC045) (mkWorld 0)
  = (Ret (Some (Z.land (Z.shiftr 0xC0CA2AA7326FC045 32) 0xFFFFFFF,
                Z.land (Z.shiftr 0xC0CA2AA7326FC045 16) 0xFFFF,
                Z.land 0xC0CA2AA7326FC045 0xFFFF)), mkWorld 0)
  /\ decodeCTIM (IntegralArg 0xCFF) (mkWorld 0) = (Ret None, mkWorld 0).
Proof.
  split.
  - apply (decode_integral_spec 0xC0CA2AA7326FC045 (mkWorld 0)).
    + unfold is_uint64. lia.
    + reflexivity.
  - apply (decode_integral_spec 0xCFF (mkWorld 0)).
    + unfold is_uint64. lia.
    + discriminate.
Defined.

(** C4: [encodeCTIM] returns no result when the ledger index exceeds
    [0xFFFFFFF], the transaction index exceeds [0xFFFF], or the network
    id exceeds [0xFFFF]; [encodeCTIM(0x10000000, 0xFFFF, 0xFFFF)] is such
    a call; and for arguments within the bounds it returns a string. *)
Theorem encode_validation (l t n : Z) (w : World) :
  (l > 0xFFFFFFF \/ t > 0xFFFF \/ n > 0xFFFF ->
   encodeCTIM l t n w = (Ret None, w))
  /\ encodeCTIM 0x10000000 0xFFFF 0xFFFF w = (Ret None, w)
  /\ (0 <= l <= 0xFFFFFFF -> 0 <= t <= 0xFFFF -> 0 <= n <= 0xFFFF ->
      exists s : string, encodeCTIM l t n w = (Ret (Some s), w)).
Proof.
  split; [apply encodeCTIM_rejects |].
  split; [reflexivity |].
  intros Hl Ht Hn. eexists. now apply encodeCTIM_accepts.
Qed.

Lemma encode_validation_witness :
  encodeCTIM 0x10000000 0xFFFF 0xFFFF (mkWorld 0) = (Ret None, mkWorld 0)
  /\ exists s : string, encodeCTIM 0xFFFFFFF 0xFFFF 0xFFFF (mkWorld 0) = (Ret (Some s), mkWorld 0).
Proof.
  split.
  - apply (proj1 (encode_validation 0x10000000 0xFFFF 0xFFFF (mkWorld 0))). lia.
  - apply (proj2 (proj2 (encode_validation 0xFFFFFFF 0xFFFF 0xFFFF (mkWorld 0)))); lia.
Defined.

(** C5: on the string path [decodeCTIM] fails for every string whose
    length is not 16 and for every string with a character outside
    [0-9A-F], a lower-case hexadecimal digit in particular; a string that
    passes both checks is read by [std::stoull] as its base-16 value, a
    64-bit word, and no other string gets a result. *)
Theorem decode_string_guards (s : string) (w : World) :
  (String.length s <> 16%nat -> decodeCTIM (StringArg s) w = (Ret None, w))
  /\ (forall c : ascii,
         In c (chars s) -> ~ is_upper_hex c ->
         decodeCTIM (StringArg s) w = (Ret None, w))
  /\ (forall c : ascii,
         In c (chars s) -> in_range "a" "f" c = true ->
         decodeCTIM (StringArg s) w = (Ret None, w))
  /\ (String.length s = 16%nat -> Forall is_upper_hex (chars s) ->
      stoull s 16 w = (Ret (hex_value s), w)
      /\ is_uint64 (hex_value s)
      /\ decodeCTIM (StringArg s) w = (Ret (decodeCTIM_value (hex_value s)), w))
  /\ (forall (r : Z * Z * Z) (w' : World),
         decodeCTIM (StringArg s) w = (Ret (Some r), w') ->
         String.length s = 16%nat /\ Forall is_upper_hex (chars s)).
Proof.
  split; [apply decodeCTIM_bad_length |].
  split; [intros c; apply decodeCTIM_bad_char |].
  split.
  { intros c Hin Hlow. apply (decodeCTIM_bad_char s c w Hin).
    now apply lower_not_upper_hex. }
  split.
  { intros Hlen Hhex.
    destruct (guards_pass s Hlen Hhex) as (Hne & Hcls & _ & Hmax).
    split; [now apply stoull_class |].
    split; [now apply hex_value_uint64 | now apply decodeCTIM_string]. }
  intros r w' Hdec. rewrite decodeCTIM_returns in Hdec.
  unfold decoded in Hdec. injection Hdec as Hdec _.
  destruct (Nat.eqb_spec (String.length s) 16) as [Hlen | Hlen];
    [| discriminate Hdec].
  destruct (regex_match_class_plus class_0_9A_F s) eqn:Hre;
    [| discriminate Hdec].
  split; [assumption | now apply regex_match_guard].
Qed.

Lemma decode_string_guards_witness :
  decodeCTIM (StringArg "C003FFFFFFFFFFF") (mkWorld 0) = (Ret None, mkWorld 0)
  /\ decodeCTIM (StringArg "C003FFFFFFFFFFFG") (mkWorld 0) = (Ret None, mkWorld 0)
  /\ decodeCTIM (StringArg "c000000100020003") (mkWorld 0) = (Ret None, mkWorld 0)
  /\ stoull "C000000100020003" 16 (mkWorld 0)
     = (Ret (hex_value "C000000100020003"), mkWorld 0).
Proof.
  split; [| split; [| split]].
  - apply (proj1 (decode_string_guards "C003FFFFFFFFFFF" (mkWorld 0))).
    simpl. lia.
  - apply (proj1 (proj2 (decode_string_guards "C003FFFFFFFFFFFG" (mkWorld 0)))
             "G"%char).
    + simpl. tauto.
    + intros H. apply H. reflexivity.
  - apply (proj1 (proj2 (proj2 (decode_string_guards "c000000100020003" (mkWorld 0))))
             "c"%char).
    + simpl. tauto.
    + reflexivity.
  - apply (proj1 (proj2 (proj2 (proj2
             (decode_string_guards "C000000100020003" (mkWorld 0)))))).
    + reflexivity.
    + repeat constructor; discriminate.
Defined.

(** C6: whenever [encodeCTIM] succeeds, the string it returns starts
    with the character C and the word it denotes, masked with
    [0xF000000000000000], is [0xC000000000000000]; the ledger index
    [0xFFFFFFF] is no exception. *)
Theorem encode_tag (l t n : Z) (w w' : World) (s : string) :
  is_uint32 l -> is_uint16 t -> is_uint16 n ->
  encodeCTIM l t n w = (Ret (Some s), w') ->
  (exists rest : string, s = String "C" rest)
  /\ Z.land (hex_value s) 0xF000000000000000 = 0xC000000000000000.
Proof.
  unfold is_uint32, is_uint16. intros Hl Ht Hn Henc.
  destruct (encodeCTIM_success _ _ _ _ _ _ Henc) as (Hl' & Ht' & Hn').
  assert (Bl : 0 <= l <= 0xFFFFFFF) by lia.
  assert (Bt : 0 <= t <= 0xFFFF) by lia.
  assert (Bn : 0 <= n <= 0xFFFF) by lia.
  rewrite (encodeCTIM_accepts l t n w Bl Bt Bn) in Henc.
  injection Henc as Hs _. subst s.
  pose proof (packed_uint64 l t n Bl Bt Bn) as Hu.
  pose proof (packed_range l t n Bl Bt Bn) as Hr.
  rewrite (put_hex_uint64_fixed _ Hu). split.
  - rewrite fixed_hex_head. eexists. f_equal.
    replace ((packed l t n / 16 ^ Z.of_nat 15) mod 16) with 12; [reflexivity |].
    change (16 ^ Z.of_nat 15) with 1152921504606846976.
    Z.to_euclidean_division_equations; lia.
  - rewrite (hex_value_fixed16 _ Hu). now apply tag_test_interval.
Qed.

Lemma encode_tag_witness :
  (exists rest : string, "CFFFFFFFFFFFFFFF"%string = String "C" rest)
  /\ Z.land (hex_value "CFFFFFFFFFFFFFFF") 0xF000000000000000 = 0xC000000000000000.
Proof.
  apply (encode_tag 0xFFFFFFF 0xFFFF 0xFFFF (mkWorld 0) (mkWorld 0)).
  - unfold is_uint32. lia.
  - unfold is_uint16. lia.
  - unfold is_uint16. lia.
  - reflexivity.
Defined.

(** C7: the test vectors of the source. *)
Theorem test_vectors (w : World) :
  encodeCTIM 0xFFFFFFF 0xFFFF 0xFFFF w = (Ret (Some "CFFFFFFFFFFFFFFF"%string), w)
  /\ encodeCTIM 0 0 0 w = (Ret (Some "C000000000000000"%string), w)
  /\ encodeCTIM 1 2 3 w = (Ret (Some "C000000100020003"%string), w)
  /\ encodeCTIM 13249191 12911 49221 w = (Ret (Some "C0CA2AA7326FC045"%string), w)
  /\ decodeCTIM (IntegralArg 0xC000000100020003) w = (Ret (Some (1, 2, 3)), w).
Proof. repeat split; reflexivity. Qed.

(** C8: the failure policy of the specification (no input makes either
    function throw or end the process, every invalid input gives the
    absent result) does not hold of the code on two inputs. On a null
    character pointer the
    [std::string] constructor of line 43 throws inside the [noexcept]
    function, so the call ends in [std::terminate]. An integral
    argument wider than 64 bits is narrowed by the assignment of line 53
    before the range test of line 57, which therefore never fires: a
    value above [0xFFFFFFFFFFFFFFFF] whose low 64 bits carry the tag is
    accepted. *)
Theorem decode_null_pointer_terminates (w : World) :
  decodeCTIM NullPointerArg w = (Terminate, w)
  /\ 2 ^ 64 + 0xC000000100020003 > 0xFFFFFFFFFFFFFFFF
  /\ decodeCTIM (IntegralArg (2 ^ 64 + 0xC000000100020003)) w
     = (Ret (Some (1, 2, 3)), w).
Proof. repeat split. Qed.

(** C9: [decodeCTIM] is a function of its argument alone: two calls with
    the same argument give the same result whatever the state they
    start in, and a call leaves the state as it found it. *)
Theorem decode_pure (ctim : ctim_arg) (w1 w2 : World) :
  fst (decodeCTIM ctim w1) = fst (decodeCTIM ctim w2)
  /\ snd (decodeCTIM ctim w1) = w1
  /\ snd (decodeCTIM ctim w2) = w2.
Proof. rewrite !decodeCTIM_returns. repeat split. Qed.

(** C10: for every 64-bit word [v] carrying the tag, [decodeCTIM]
    succeeds with a triple on which [encodeCTIM] succeeds, and the string
    it returns is the 16-character upper-case hexadecimal representation
    of [v]. *)
Theorem decode_encode_roundtrip (v : Z) (w : World) :
  is_uint64 v ->
  Z.land v 0xF000000000000000 = 0xC000000000000000 ->
  exists (l t n : Z) (s : string),
    decodeCTIM (IntegralArg v) w = (Ret (Some (l, t, n)), w)
    /\ encodeCTIM l t n w = (Ret (Some s), w)
    /\ is_hex16_of s v
    /\ decodeCTIM (StringArg s) w = (Ret (Some (l, t, n)), w).
Proof.
  intros Hu Htag.
  pose proof (proj1 (tag_test_interval v Hu) Htag) as Hr.
  pose proof (Z.mod_pos_bound (v / 2 ^ 32) (2 ^ 28) ltac:(lia)) as Bl.
  pose proof (Z.mod_pos_bound (v / 2 ^ 16) (2 ^ 16) ltac:(lia)) as Bt.
  pose proof (Z.mod_pos_bound v (2 ^ 16) ltac:(lia)) as Bn.
  exists ((v / 2 ^ 32) mod 2 ^ 28), ((v / 2 ^ 16) mod 2 ^ 16), (v mod 2 ^ 16).
  exists (put_hex_uint64 true "0" 16 v).
  destruct (put_hex_uint64_spec v Hu) as (Hlen & Hhex & Hval).
  split.
  { rewrite decodeCTIM_integral by assumption. now rewrite decodeCTIM_value_tagged. }
  split.
  { rewrite encodeCTIM_accepts by lia. now rewrite packed_of_fields. }
  split; [now repeat split |].
  rewrite decodeCTIM_string by assumption.
  now rewrite Hval, decodeCTIM_value_tagged.
Qed.

Lemma decode_encode_roundtrip_witness :
  exists (l t n : Z) (s : string),
    decodeCTIM (IntegralArg 0xCFFFFFFFFFFFFFFF) (mkWorld 0)
    = (Ret (Some (l, t, n)), mkWorld 0)
    /\ encodeCTIM l t n (mkWorld 0) = (Ret (Some s), mkWorld 0)
    /\ is_hex16_of s 0xCFFFFFFFFFFFFFFF
    /\ decodeCTIM (StringArg s) (mkWorld 0) = (Ret (Some (l, t, n)), mkWorld 0).
Proof.
  apply (decode_encode_roundtrip 0xCFFFFFFFFFFFFFFF (mkWorld 0)).
  - unfold is_uint64. lia.
  - reflexivity.
Defined.

(* ================================================================== *)
(** ** Further properties: layout, canonical form, order *)

Section Concatenation.

Lemma length_append_sum (s1 s2 : string) :
  String.length (s1 ++ s2) = (String.length s1 + String.length s2)%nat.
Proof. induction s1 as [| c r IH]; simpl; [reflexivity | now rewrite IH]. Qed.

Lemma chars_append (s1 s2 : string) :
  chars (s1 ++ s2) = (chars s1 ++ chars s2)%list.
Proof. induction s1 as [| c r IH]; simpl; [reflexivity | now rewrite IH]. Qed.

Lemma hex_value_from_append (s1 s2 : string) :
  forall a, hex_value_from a (s1 ++ s2) = hex_value_from (hex_value_from a s1) s2.
Proof. induction s1 as [| c r IH]; intros a; simpl; [reflexivity | apply IH]. Qed.

(** The value of a field followed by [k] more digits. *)
Lemma hex_value_from_field (f rest : string) (a : Z) (k : nat) :
  String.length f = k ->
  hex_value_from a (f ++ rest)
  = hex_value_from (a * 16 ^ Z.of_nat k + hex_value f) rest.
Proof.
  intros <-. rewrite hex_value_from_append. f_equal. apply hex_value_from_split.
Qed.

Lemma append_assoc_string (s1 s2 s3 : string) :
  ((s1 ++ s2) ++ s3 = s1 ++ (s2 ++ s3))%string.
Proof. induction s1 as [| c r IH]; simpl; [reflexivity | now rewrite IH]. Qed.

Lemma fixed_hex_append (n : nat) :
  forall v acc, fixed_hex n v acc = (fixed_hex n v EmptyString ++ acc)%string.
Proof.
  induction n as [| n IH]; intros v acc; simpl; [reflexivity |].
  rewrite IH, (IH _ (String _ EmptyString)), append_assoc_string. reflexivity.
Qed.

Lemma hex_value_fixed (n : nat) (v : Z) :
  0 <= v < 16 ^ Z.of_nat n -> hex_value (fixed_hex n v EmptyString) = v.
Proof.
  intros Hv. unfold hex_value. rewrite hex_value_from_fixed. simpl hex_value_from.
  rewrite Z.mod_small by assumption. lia.
Qed.

End Concatenation.

Section Acceptance.

Lemma decodeCTIM_value_some (v : Z) (r : Z * Z * Z) :
  decodeCTIM_value v = Some r ->
  Z.land v 0xF000000000000000 = 0xC000000000000000.
Proof.
  unfold decodeCTIM_value.
  destruct (Z.eqb_spec (Z.land v 0xF000000000000000) 0xC000000000000000) as [E | E];
    [intros _; exact E |].
  rewrite orb_true_r. discriminate.
Qed.

(** What a successful call on a string says about the string. *)
Lemma decodeCTIM_string_success (s : string) (w w' : World) (r : Z * Z * Z) :
  decodeCTIM (StringArg s) w = (Ret (Some r), w') ->
  String.length s = 16%nat
  /\ Forall is_upper_hex (chars s)
  /\ decodeCTIM_value (hex_value s) = Some r
  /\ 0xC000000000000000 <= hex_value s <= 0xCFFFFFFFFFFFFFFF.
Proof.
  intros Hdec. rewrite decodeCTIM_returns in Hdec.
  unfold decoded in Hdec. injection Hdec as Hdec _.
  destruct (Nat.eqb_spec (String.length s) 16) as [Hlen | Hlen];
    [| discriminate Hdec].
  destruct (regex_match_class_plus class_0_9A_F s) eqn:Hre;
    [| discriminate Hdec].
  simpl in Hdec.
  split; [assumption |]. split; [now apply regex_match_guard |].
  split; [assumption |].
  apply tag_test_interval; [now apply hex_value_uint64 |].
  now apply decodeCTIM_value_some with r.
Qed.

(** The value of a 16-digit string, split at its first digit. *)
Lemma hex_value_head (c : ascii) (rest : string) :
  String.length rest = 15%nat ->
  hex_value (String c rest) = nibble c * 16 ^ 15 + hex_value rest
  /\ 0 <= hex_value rest < 16 ^ 15.
Proof.
  intros Hlen. unfold hex_value at 1. cbn [hex_value_from].
  rewrite hex_value_from_split, Hlen.
  pose proof (hex_value_range rest) as R. rewrite Hlen in R.
  split; [f_equal; lia | exact R].
Qed.

End Acceptance.

Section Layout.

(** A string made of the tag digit and three fields of 7, 4 and 4
    digits denotes the packing of the three field values. *)
Lemma hex_value_layout (L T N : string) :
  String.length L = 7%nat -> String.length T = 4%nat -> String.length N = 4%nat ->
  hex_value (String "C" (L ++ T ++ N)) = packed (hex_value L) (hex_value T) (hex_value N)
  /\ 0 <= hex_value L <= 0xFFFFFFF
  /\ 0 <= hex_value T <= 0xFFFF
  /\ 0 <= hex_value N <= 0xFFFF.
Proof.
  intros HL HT HN.
  pose proof (hex_value_range L) as RL. rewrite HL in RL.
  pose proof (hex_value_range T) as RT. rewrite HT in RT.
  pose proof (hex_value_range N) as RN. rewrite HN in RN.
  change (16 ^ Z.of_nat 7) with 268435456 in RL.
  change (16 ^ Z.of_nat 4) with 65536 in RT, RN.
  split; [| lia].
  unfold hex_value at 1. cbn [hex_value_from].
  rewrite (hex_value_from_field L _ _ 7 HL), (hex_value_from_field T _ _ 4 HT).
  rewrite hex_value_from_split, HN.
  change (nibble "C") with 12. unfold packed.
  change (16 ^ Z.of_nat 7) with 268435456. change (16 ^ Z.of_nat 4) with 65536.
  change (2 ^ 32) with 4294967296. change (2 ^ 16) with 65536.
  lia.
Qed.

Lemma layout_shape (L T N : string) :
  String.length L = 7%nat -> String.length T = 4%nat -> String.length N = 4%nat ->
  Forall is_upper_hex (chars L) -> Forall is_upper_hex (chars T) ->
  Forall is_upper_hex (chars N) ->
  String.length (String "C" (L ++ T ++ N)) = 16%nat
  /\ Forall is_upper_hex (chars (String "C" (L ++ T ++ N))).
Proof.
  intros HL HT HN FL FT FN. split.
  - simpl. rewrite !length_append_sum, HL, HT, HN. reflexivity.
  - simpl. constructor; [discriminate |].
    rewrite !chars_append. repeat (apply Forall_app; split); assumption.
Qed.

End Layout.

(** X1: for a triple within the bounds, the string [encodeCTIM] returns
    is the character C followed by the ledger index on 7 digits, the
    transaction index on 4 digits and the network id on 4 digits, each
    field being the fixed-width upper-case representation of its value. *)
Theorem encode_layout (l t n : Z) (w : World) :
  0 <= l <= 0xFFFFFFF -> 0 <= t <= 0xFFFF -> 0 <= n <= 0xFFFF ->
  encodeCTIM l t n w
  = (Ret (Some (String "C" (fixed_hex 7 l EmptyString
                            ++ fixed_hex 4 t EmptyString
                            ++ fixed_hex 4 n EmptyString))), w)
  /\ hex_value (fixed_hex 7 l EmptyString) = l
  /\ hex_value (fixed_hex 4 t EmptyString) = t
  /\ hex_value (fixed_hex 4 n EmptyString) = n.
Proof.
  intros Hl Ht Hn.
  assert (Vl : hex_value (fixed_hex 7 l EmptyString) = l)
    by (apply hex_value_fixed; change (16 ^ Z.of_nat 7) with 268435456; lia).
  assert (Vt : hex_value (fixed_hex 4 t EmptyString) = t)
    by (apply hex_value_fixed; change (16 ^ Z.of_nat 4) with 65536; lia).
  assert (Vn : hex_value (fixed_hex 4 n EmptyString) = n)
    by (apply hex_value_fixed; change (16 ^ Z.of_nat 4) with 65536; lia).
  split; [| now repeat split].
  rewrite encodeCTIM_accepts by assumption. do 3 f_equal.
  pose proof (packed_uint64 l t n Hl Ht Hn) as Hu.
  destruct (put_hex_uint64_spec _ Hu) as (Hlen & Hhex & Hval).
  set (L := fixed_hex 7 l EmptyString). set (T := fixed_hex 4 t EmptyString).
  set (N := fixed_hex 4 n EmptyString).
  assert (HL : String.length L = 7%nat) by apply length_fixed_hex.
  assert (HT : String.length T = 4%nat) by apply length_fixed_hex.
  assert (HN : String.length N = 4%nat) by apply length_fixed_hex.
  destruct (layout_shape L T N HL HT HN) as (Slen & Shex);
    try (apply chars_fixed_hex; constructor).
  destruct (hex_value_layout L T N HL HT HN) as (Sval & _).
  apply hex_value_inj; [now rewrite Hlen, Slen | assumption | assumption |].
  rewrite Hval, Sval. unfold L, T, N. now rewrite Vl, Vt, Vn.
Qed.

Lemma encode_layout_witness :
  encodeCTIM 13249191 12911 49221 (mkWorld 0)
  = (Ret (Some (String "C" (fixed_hex 7 13249191 EmptyString
                            ++ fixed_hex 4 12911 EmptyString
                            ++ fixed_hex 4 49221 EmptyString))), mkWorld 0).
Proof.
  apply (encode_layout 13249191 12911 49221 (mkWorld 0)); lia.
Defined.

(** X2: [decodeCTIM] reads a string made of the character C and three
    fields of 7, 4 and 4 upper-case hexadecimal digits field by field:
    the result is the value of each field. *)
Theorem decode_layout (L T N : string) (w : World) :
  String.length L = 7%nat -> String.length T = 4%nat -> String.length N = 4%nat ->
  Forall is_upper_hex (chars L) -> Forall is_upper_hex (chars T) ->
  Forall is_upper_hex (chars N) ->
  decodeCTIM (StringArg (String "C" (L ++ T ++ N))) w
  = (Ret (Some (hex_value L, hex_value T, hex_value N)), w).
Proof.
  intros HL HT HN FL FT FN.
  destruct (layout_shape L T N HL HT HN FL FT FN) as (Slen & Shex).
  destruct (hex_value_layout L T N HL HT HN) as (Sval & RL & RT & RN).
  rewrite decodeCTIM_string by assumption. rewrite Sval.
  rewrite decodeCTIM_value_tagged by (apply packed_range; assumption).
  destruct (packed_fields _ _ _ RL RT RN) as (-> & -> & ->). reflexivity.
Qed.

Lemma decode_layout_witness :
  decodeCTIM (StringArg (String "C" ("0CA2AA7" ++ "326F" ++ "C045"))) (mkWorld 0)
  = (Ret (Some (hex_value "0CA2AA7", hex_value "326F", hex_value "C045")), mkWorld 0).
Proof.
  apply (decode_layout "0CA2AA7" "326F" "C045" (mkWorld 0));
    solve [reflexivity | repeat constructor; discriminate].
Defined.

(** X3: [decodeCTIM] accepts a string exactly when it has 16 characters,
    all of them among [0-9A-F], the first one being C. *)
Theorem decode_string_accepts_iff (s : string) (w : World) :
  (exists r : Z * Z * Z, decodeCTIM (StringArg s) w = (Ret (Some r), w))
  <-> (String.length s = 16%nat
       /\ Forall is_upper_hex (chars s)
       /\ exists rest : string, s = String "C" rest).
Proof.
  split.
  - intros (r & Hdec).
    destruct (decodeCTIM_string_success s w w r Hdec) as (Hlen & Hhex & _ & Hr).
    split; [assumption |]. split; [assumption |].
    destruct s as [| c rest]; [discriminate Hlen |].
    injection Hlen as Hlen.
    destruct (hex_value_head c rest Hlen) as (Hv & Hrest).
    pose proof (nibble_range c) as Hn.
    assert (Hc : nibble c = 12).
    { rewrite Hv in Hr. change (16 ^ 15) with 1152921504606846976 in *. lia. }
    exists rest. f_equal.
    inversion Hhex as [| ? ? Hup _]; subst.
    rewrite <- (char_of_nibble c Hup), Hc. reflexivity.
  - intros (Hlen & Hhex & rest & ->).
    injection Hlen as Hlen'.
    destruct (hex_value_head "C" rest Hlen') as (Hv & Hrest).
    rewrite decodeCTIM_string by (simpl; congruence || assumption).
    rewrite decodeCTIM_value_tagged; [now eexists |].
    rewrite Hv. change (nibble "C") with 12.
    change (16 ^ 15) with 1152921504606846976 in *. lia.
Qed.

Lemma decode_string_accepts_iff_witness :
  (exists r : Z * Z * Z,
      decodeCTIM (StringArg "C0CA2AA7326FC045") (mkWorld 0) = (Ret (Some r), mkWorld 0))
  /\ ~ (exists r : Z * Z * Z,
           decodeCTIM (StringArg "D0CA2AA7326FC045") (mkWorld 0)
           = (Ret (Some r), mkWorld 0)).
Proof.
  split.
  - apply (decode_string_accepts_iff "C0CA2AA7326FC045" (mkWorld 0)).
    split; [reflexivity |].
    split; [repeat constructor; discriminate | now eexists].
  - intros H.
    apply (decode_string_accepts_iff "D0CA2AA7326FC045" (mkWorld 0)) in H.
    destruct H as (_ & _ & rest & H). discriminate H.
Defined.

(** X4: every string [decodeCTIM] accepts is in canonical form:
    [encodeCTIM] applied to the triple it returned gives the same string
    back. *)
Theorem decode_then_encode_string (s : string) (l t n : Z) (w w' : World) :
  decodeCTIM (StringArg s) w = (Ret (Some (l, t, n)), w') ->
  encodeCTIM l t n w = (Ret (Some s), w).
Proof.
  intros Hdec.
  destruct (decodeCTIM_string_success s w w' _ Hdec) as (Hlen & Hhex & Hval & Hr).
  rewrite decodeCTIM_value_tagged in Hval by assumption.
  injection Hval as <- <- <-.
  pose proof (Z.mod_pos_bound (hex_value s / 2 ^ 32) (2 ^ 28) ltac:(lia)) as Bl.
  pose proof (Z.mod_pos_bound (hex_value s / 2 ^ 16) (2 ^ 16) ltac:(lia)) as Bt.
  pose proof (Z.mod_pos_bound (hex_value s) (2 ^ 16) ltac:(lia)) as Bn.
  rewrite encodeCTIM_accepts by lia.
  rewrite packed_of_fields by assumption.
  do 3 f_equal.
  destruct (put_hex_uint64_spec _ (hex_value_uint64 s Hlen)) as (Plen & Phex & Pval).
  apply hex_value_inj; congruence.
Qed.

Lemma decode_then_encode_string_witness :
  encodeCTIM 1 2 3 (mkWorld 0) = (Ret (Some "C000000100020003"%string), mkWorld 0).
Proof.
  apply (decode_then_encode_string "C000000100020003" 1 2 3 (mkWorld 0) (mkWorld 0)).
  reflexivity.
Defined.

Section Fields.

(** What a returned triple says about the word it was unpacked from. *)
Lemma decodeCTIM_value_fields (v l t n : Z) :
  is_uint64 v ->
  decodeCTIM_value v = Some (l, t, n) ->
  0xC000000000000000 <= v <= 0xCFFFFFFFFFFFFFFF
  /\ 0 <= l <= 0xFFFFFFF /\ 0 <= t <= 0xFFFF /\ 0 <= n <= 0xFFFF
  /\ packed l t n = v.
Proof.
  intros Hu Hdec.
  assert (Hr : 0xC000000000000000 <= v <= 0xCFFFFFFFFFFFFFFF).
  { apply tag_test_interval; [assumption |].
    now apply decodeCTIM_value_some with (l, t, n). }
  rewrite decodeCTIM_value_tagged in Hdec by assumption.
  injection Hdec as <- <- <-.
  pose proof (Z.mod_pos_bound (v / 2 ^ 32) (2 ^ 28) ltac:(lia)).
  pose proof (Z.mod_pos_bound (v / 2 ^ 16) (2 ^ 16) ltac:(lia)).
  pose proof (Z.mod_pos_bound v (2 ^ 16) ltac:(lia)).
  split; [assumption |].
  split; [lia |]. split; [lia |]. split; [lia |].
  now apply packed_of_fields.
Qed.

(** The word [decodeCTIM] unpacks, for an argument it accepts. *)
Lemma decodeCTIM_success_word (ctim : ctim_arg) (r : Z * Z * Z) (w w' : World) :
  decodeCTIM ctim w = (Ret (Some r), w') ->
  exists v : Z, is_uint64 v /\ decodeCTIM_value v = Some r.
Proof.
  destruct ctim as [s | v | |].
  - intros Hdec.
    destruct (decodeCTIM_string_success s w w' r Hdec) as (Hlen & _ & Hval & _).
    exists (hex_value s). split; [now apply hex_value_uint64 | assumption].
  - rewrite decodeCTIM_returns. unfold decoded.
    intros Hdec. injection Hdec as Hdec _.
    exists (to_uint64 v). split; [| exact Hdec].
    apply Z.mod_pos_bound. lia.
  - rewrite decodeCTIM_returns. unfold decoded. discriminate.
  - rewrite decodeCTIM_returns. unfold decoded. discriminate.
Qed.

Lemma encodeCTIM_word (l t n : Z) (w w' : World) (s : string) :
  is_uint32 l -> is_uint16 t -> is_uint16 n ->
  encodeCTIM l t n w = (Ret (Some s), w') ->
  0 <= l <= 0xFFFFFFF /\ 0 <= t <= 0xFFFF /\ 0 <= n <= 0xFFFF
  /\ s = put_hex_uint64 true "0" 16 (packed l t n)
  /\ hex_value s = packed l t n.
Proof.
  unfold is_uint32, is_uint16. intros Hl Ht Hn Henc.
  destruct (encodeCTIM_success _ _ _ _ _ _ Henc) as (Hl' & Ht' & Hn').
  assert (Bl : 0 <= l <= 0xFFFFFFF) by lia.
  assert (Bt : 0 <= t <= 0xFFFF) by lia.
  assert (Bn : 0 <= n <= 0xFFFF) by lia.
  rewrite (encodeCTIM_accepts l t n w Bl Bt Bn) in Henc.
  injection Henc as Hs _. subst s.
  repeat (split; [assumption |]). split; [reflexivity |].
  apply put_hex_uint64_spec. now apply packed_uint64.
Qed.

End Fields.

(** X5: [encodeCTIM] is injective: two calls that return the same string
    were given the same triple. *)
Theorem encode_injective
  (l t n l' t' n' : Z) (w1 w1' w2 w2' : World) (s : string) :
  is_uint32 l -> is_uint16 t -> is_uint16 n ->
  is_uint32 l' -> is_uint16 t' -> is_uint16 n' ->
  encodeCTIM l t n w1 = (Ret (Some s), w1') ->
  encodeCTIM l' t' n' w2 = (Ret (Some s), w2') ->
  l = l' /\ t = t' /\ n = n'.
Proof.
  intros Tl Tt Tn Tl' Tt' Tn' H1 H2.
  destruct (encodeCTIM_word _ _ _ _ _ _ Tl Tt Tn H1) as (Bl & Bt & Bn & _ & V1).
  destruct (encodeCTIM_word _ _ _ _ _ _ Tl' Tt' Tn' H2) as (Bl' & Bt' & Bn' & _ & V2).
  destruct (packed_fields l t n Bl Bt Bn) as (Fl & Ft & Fn).
  destruct (packed_fields l' t' n' Bl' Bt' Bn') as (Fl' & Ft' & Fn').
  rewrite <- V1, V2 in Fl, Ft, Fn. rewrite Fl' in Fl. rewrite Ft' in Ft.
  rewrite Fn' in Fn. now repeat split.
Qed.

Lemma encode_injective_witness : 1 = 1 /\ 2 = 2 /\ 3 = 3.
Proof.
  apply (encode_injective 1 2 3 1 2 3 (mkWorld 0) (mkWorld 0) (mkWorld 5) (mkWorld 5)
           "C000000100020003");
    solve [unfold is_uint32, is_uint16; lia | reflexivity].
Defined.

(** X6: whatever the kind of its argument, a triple returned by
    [decodeCTIM] is within the bounds of the three fields, and
    [encodeCTIM] accepts it. *)
Theorem decode_result_encodable (ctim : ctim_arg) (l t n : Z) (w w' : World) :
  decodeCTIM ctim w = (Ret (Some (l, t, n)), w') ->
  0 <= l <= 0xFFFFFFF /\ 0 <= t <= 0xFFFF /\ 0 <= n <= 0xFFFF
  /\ exists s : string, encodeCTIM l t n w = (Ret (Some s), w).
Proof.
  intros Hdec.
  destruct (decodeCTIM_success_word ctim _ w w' Hdec) as (v & Hu & Hval).
  destruct (decodeCTIM_value_fields v l t n Hu Hval) as (_ & Bl & Bt & Bn & _).
  repeat (split; [assumption |]).
  eexists. now apply encodeCTIM_accepts.
Qed.

Lemma decode_result_encodable_witness :
  0 <= 0xFFFFFFF <= 0xFFFFFFF /\ 0 <= 0xFFFF <= 0xFFFF /\ 0 <= 0xFFFF <= 0xFFFF
  /\ exists s : string,
      encodeCTIM 0xFFFFFFF 0xFFFF 0xFFFF (mkWorld 0) = (Ret (Some s), mkWorld 0).
Proof.
  apply (decode_result_encodable (IntegralArg (-0x3000000000000001))
           0xFFFFFFF 0xFFFF 0xFFFF (mkWorld 0) (mkWorld 0)).
  reflexivity.
Defined.

(** X7: an argument of a signed 64-bit type is converted to [uint64_t]
    before the tag test, so [decodeCTIM] accepts exactly the negative
    values from [-0x4000000000000000] to [-0x3000000000000001], whose
    two's complement pattern carries the tag, and unpacks that pattern;
    it rejects every non-negative signed value. *)
Theorem decode_signed (v : Z) (w : World) :
  is_int64 v ->
  (- 0x4000000000000000 <= v <= - 0x3000000000000001 ->
   decodeCTIM (IntegralArg v) w
   = (Ret (Some (Z.land (Z.shiftr v 32) 0xFFFFFFF,
                 Z.land (Z.shiftr v 16) 0xFFFF,
                 Z.land v 0xFFFF)), w))
  /\ (~ (- 0x4000000000000000 <= v <= - 0x3000000000000001) ->
      decodeCTIM (IntegralArg v) w = (Ret None, w)).
Proof.
  unfold is_int64. change (2 ^ 63) with 9223372036854775808. intros Hv.
  rewrite decodeCTIM_returns. unfold decoded, to_uint64, wrap.
  assert (Hu : is_uint64 (v mod 2 ^ 64)) by (apply Z.mod_pos_bound; lia).
  split.
  - intros Hr.
    assert (Hw : v mod 2 ^ 64 = v + 2 ^ 64).
    { symmetry. apply Z.mod_unique with (-1); change (2 ^ 64) with 18446744073709551616; lia. }
    rewrite decodeCTIM_value_tagged
      by (rewrite Hw; change (2 ^ 64) with 18446744073709551616; lia).
    rewrite field_ledger, field_txn, field_network, Hw.
    change (2 ^ 64) with 18446744073709551616.
    change (2 ^ 32) with 4294967296. change (2 ^ 28) with 268435456.
    change (2 ^ 16) with 65536.
    replace (((v + 18446744073709551616) / 4294967296) mod 268435456)
      with ((v / 4294967296) mod 268435456)
      by (Z.to_euclidean_division_equations; lia).
    replace (((v + 18446744073709551616) / 65536) mod 65536)
      with ((v / 65536) mod 65536)
      by (Z.to_euclidean_division_equations; lia).
    replace ((v + 18446744073709551616) mod 65536) with (v mod 65536)
      by (Z.to_euclidean_division_equations; lia).
    reflexivity.
  - intros Hr. rewrite decodeCTIM_value_untagged; [reflexivity |].
    intros Htag. apply (tag_test_interval _ Hu) in Htag. apply Hr.
    change (2 ^ 64) with 18446744073709551616 in *.
    Z.to_euclidean_division_equations; lia.
Qed.

Lemma decode_signed_witness :
  decodeCTIM (IntegralArg (- 0x4000000000000000)) (mkWorld 0)
  = (Ret (Some (Z.land (Z.shiftr (- 0x4000000000000000) 32) 0xFFFFFFF,
                Z.land (Z.shiftr (- 0x4000000000000000) 16) 0xFFFF,
                Z.land (- 0x4000000000000000) 0xFFFF)), mkWorld 0)
  /\ decodeCTIM (IntegralArg 0xCFF) (mkWorld 0) = (Ret None, mkWorld 0).
Proof.
  split.
  - apply (decode_signed (- 0x4000000000000000) (mkWorld 0)).
    + unfold is_int64. lia.
    + lia.
  - apply (decode_signed 0xCFF (mkWorld 0)).
    + unfold is_int64. lia.
    + lia.
Defined.

(** X8: with the parameter types of the source (a 32-bit ledger index,
    16-bit transaction index and network id), [encodeCTIM] fails exactly
    when the ledger index exceeds [0xFFFFFFF]: the two other range
    checks cannot fail. *)
Theorem encode_fails_iff_ledger (l t n : Z) (w : World) :
  is_uint32 l -> is_uint16 t -> is_uint16 n ->
  (encodeCTIM l t n w = (Ret None, w) <-> l > 0xFFFFFFF).
Proof.
  unfold is_uint32, is_uint16. intros Hl Ht Hn. split.
  - intros Hnone.
    destruct (Z.le_gt_cases l 0xFFFFFFF) as [Hle | Hgt]; [| lia].
    rewrite encodeCTIM_accepts in Hnone by lia. discriminate Hnone.
  - intros Hgt. apply encodeCTIM_rejects. now left.
Qed.

Lemma encode_fails_iff_ledger_witness :
  encodeCTIM 0xFFFFFFFF 0xFFFF 0xFFFF (mkWorld 0) = (Ret None, mkWorld 0).
Proof.
  apply (encode_fails_iff_ledger 0xFFFFFFFF 0xFFFF 0xFFFF (mkWorld 0));
    unfold is_uint32, is_uint16; lia.
Defined.

(** X9: [decodeCTIM] is injective on 64-bit words: two words that give
    the same triple are the same word. *)
Theorem decode_integral_injective
  (v v' : Z) (r : Z * Z * Z) (w1 w1' w2 w2' : World) :
  is_uint64 v -> is_uint64 v' ->
  decodeCTIM (IntegralArg v) w1 = (Ret (Some r), w1') ->
  decodeCTIM (IntegralArg v') w2 = (Ret (Some r), w2') ->
  v = v'.
Proof.
  intros Hu Hu' H1 H2. destruct r as [[l t] n].
  rewrite decodeCTIM_integral in H1, H2 by assumption.
  injection H1 as H1 _. injection H2 as H2 _.
  destruct (decodeCTIM_value_fields v l t n Hu H1) as (_ & _ & _ & _ & <-).
  destruct (decodeCTIM_value_fields v' l t n Hu' H2) as (_ & _ & _ & _ & <-).
  reflexivity.
Qed.

Lemma decode_integral_injective_witness :
  0xC000000100020003 = 0xC000000100020003.
Proof.
  apply (decode_integral_injective 0xC000000100020003 0xC000000100020003 (1, 2, 3)
           (mkWorld 0) (mkWorld 0) (mkWorld 0) (mkWorld 0));
    solve [unfold is_uint64; lia | reflexivity].
Defined.

Section Order.

(** On upper-case hexadecimal digits the order of the characters is the
    order of their values. *)
Lemma ascii_compare_nibble (c c' : ascii) :
  is_upper_hex c -> is_upper_hex c' ->
  Ascii.compare c c' = Z.compare (nibble c) (nibble c').
Proof.
  intros Hc Hc'.
  rewrite <- (char_of_nibble c Hc) at 1. rewrite <- (char_of_nibble c' Hc') at 1.
  pose proof (nibble_range c) as R. pose proof (nibble_range c') as R'.
  revert R R'. generalize (nibble c) (nibble c'). intros d d' R R'.
  below_16 d. below_16 d'.
  intuition (subst; reflexivity).
Qed.

(** Strings of digits of the same length compare as their values do. *)
Lemma string_compare_hex_value (s : string) :
  forall s',
    String.length s = String.length s' ->
    Forall is_upper_hex (chars s) -> Forall is_upper_hex (chars s') ->
    String.compare s s' = Z.compare (hex_value s) (hex_value s').
Proof.
  induction s as [| c r IH]; intros [| c' r'] Hlen F F';
    simpl in Hlen; try discriminate; [reflexivity |].
  injection Hlen as Hlen.
  simpl in F, F'. inversion F as [| ? ? Hc Fr]. inversion F' as [| ? ? Hc' Fr']. subst.
  cbn [String.compare].
  rewrite (ascii_compare_nibble c c' Hc Hc'), (IH r' Hlen Fr Fr').
  unfold hex_value at 3 4. cbn [hex_value_from].
  rewrite (hex_value_from_split r), (hex_value_from_split r'), Hlen.
  pose proof (hex_value_range r) as R. pose proof (hex_value_range r') as R'.
  rewrite Hlen in R.
  pose proof (nibble_range c). pose proof (nibble_range c').
  set (P := 16 ^ Z.of_nat (String.length r')) in *.
  destruct (Z.compare_spec (nibble c) (nibble c')) as [E | L | G].
  - rewrite E. symmetry. apply Z.add_compare_mono_l.
  - symmetry. apply Z.compare_lt_iff. nia.
  - symmetry. apply Z.compare_gt_iff. nia.
Qed.

Lemma packed_order (l t n l' t' n' : Z) :
  0 <= l <= 0xFFFFFFF -> 0 <= t <= 0xFFFF -> 0 <= n <= 0xFFFF ->
  0 <= l' <= 0xFFFFFFF -> 0 <= t' <= 0xFFFF -> 0 <= n' <= 0xFFFF ->
  (triple_lt (l, t, n) (l', t', n') <-> packed l t n < packed l' t' n').
Proof.
  intros Hl Ht Hn Hl' Ht' Hn'. unfold triple_lt, packed.
  change (2 ^ 32) with 4294967296. change (2 ^ 16) with 65536. lia.
Qed.

End Order.

(** X10: [encodeCTIM] preserves order: the strings it returns, compared
    character by character, and the words they denote are ordered as the
    triples are, by ledger index, then transaction index, then network
    id. *)
Theorem encode_order
  (l t n l' t' n' : Z) (w1 w1' w2 w2' : World) (s s' : string) :
  is_uint32 l -> is_uint16 t -> is_uint16 n ->
  is_uint32 l' -> is_uint16 t' -> is_uint16 n' ->
  encodeCTIM l t n w1 = (Ret (Some s), w1') ->
  encodeCTIM l' t' n' w2 = (Ret (Some s'), w2') ->
  (triple_lt (l, t, n) (l', t', n') <-> String.compare s s' = Lt)
  /\ (triple_lt (l, t, n) (l', t', n') <-> hex_value s < hex_value s').
Proof.
  intros Tl Tt Tn Tl' Tt' Tn' H1 H2.
  destruct (encodeCTIM_word _ _ _ _ _ _ Tl Tt Tn H1) as (Bl & Bt & Bn & S1 & V1).
  destruct (encodeCTIM_word _ _ _ _ _ _ Tl' Tt' Tn' H2) as (Bl' & Bt' & Bn' & S2 & V2).
  destruct (put_hex_uint64_spec _ (packed_uint64 l t n Bl Bt Bn)) as (Len1 & F1 & _).
  destruct (put_hex_uint64_spec _ (packed_uint64 l' t' n' Bl' Bt' Bn')) as (Len2 & F2 & _).
  rewrite <- S1 in Len1, F1. rewrite <- S2 in Len2, F2.
  rewrite string_compare_hex_value by congruence.
  rewrite Z.compare_lt_iff, V1, V2.
  split; now apply packed_order.
Qed.

Lemma encode_order_witness :
  (triple_lt (1, 0xFFFF, 0xFFFF) (2, 0, 0)
   <-> String.compare "C0000001FFFFFFFF" "C000000200000000" = Lt)
  /\ (triple_lt (1, 0xFFFF, 0xFFFF) (2, 0, 0)
      <-> hex_value "C0000001FFFFFFFF" < hex_value "C000000200000000").
Proof.
  apply (encode_order 1 0xFFFF 0xFFFF 2 0 0
           (mkWorld 0) (mkWorld 0) (mkWorld 0) (mkWorld 0));
    solve [unfold is_uint32, is_uint16; lia | reflexivity].
Defined.

(** X11: [encodeCTIM] always returns, and [decodeCTIM] returns on every
    argument other than a null character pointer: no exception escapes.
    On the string path, a string that passed the length and the
    character guard denotes a value of at most [0xFFFFFFFFFFFFFFFF], and
    [std::stoull] returns it without throwing and without a change of
    [errno]. *)
Theorem returns_unless_null :
  (forall (l t n : Z) (w : World),
      exists r : option string, encodeCTIM l t n w = (Ret r, w))
  /\ (forall (ctim : ctim_arg) (w : World),
         ctim <> NullPointerArg ->
         exists r : option (Z * Z * Z), decodeCTIM ctim w = (Ret r, w))
  /\ (forall (s : string) (w : World),
         String.length s = 16%nat ->
         regex_match_class_plus class_0_9A_F s = true ->
         0 <= hex_value s <= 0xFFFFFFFFFFFFFFFF
         /\ stoull s 16 w = (Ret (hex_value s), w)).
Proof.
  split; [apply encodeCTIM_returns |].
  split.
  { intros ctim w Hnn. rewrite decodeCTIM_returns.
    destruct ctim; try (eexists; reflexivity). congruence. }
  intros s w Hlen Hre.
  destruct (guards_pass s Hlen (regex_match_guard s Hre)) as (Hne & Hcls & _ & Hmax).
  pose proof (hex_value_range s). unfold ULLONG_MAX in Hmax.
  split; [lia | now apply stoull_class].
Qed.

Lemma returns_unless_null_witness :
  (exists r : option (Z * Z * Z),
      decodeCTIM (StringArg "FFFFFFFFFFFFFFFF") (mkWorld 7) = (Ret r, mkWorld 7))
  /\ 0 <= hex_value "FFFFFFFFFFFFFFFF" <= 0xFFFFFFFFFFFFFFFF
  /\ stoull "FFFFFFFFFFFFFFFF" 16 (mkWorld 7)
     = (Ret (hex_value "FFFFFFFFFFFFFFFF"), mkWorld 7).
Proof.
  destruct returns_unless_null as (_ & Hd & Hp).
  split.
  - apply Hd. discriminate.
  - apply Hp; reflexivity.
Defined.
